(** * TemplateParser: a shallow embedding of the tokenizer, the object model
      and the line parser, with the properties of its specification.

    Go strings are byte sequences: [len], slicing and indexing count bytes.
    A string is modelled as a list of [ascii] (8-bit) characters, lengths and
    offsets as [nat], the Go [int] of a token kind or of a template kind as
    [Z], and a [uint64] as a [Z] whose wrap-around is written out. *)

From Stdlib Require Import Ascii String DecimalString.
From Stdlib Require Import List Bool Arith ZArith Lia.
Import ListNotations.

Local Open Scope nat_scope.

(** ** Strings *)

Definition gostring := list ascii.

(** A string literal of the source. *)
Definition go (s : string) : gostring := list_ascii_of_string s.

Definition code (c : ascii) : nat := nat_of_ascii c.

Definition is_ascii (c : ascii) : bool := code c <? 128.

(** [string(b)] for a byte [b]: the conversion of an integer to a string
    yields the UTF-8 encoding of the code point of that value, so a byte
    below 0x80 gives a one-byte string and a byte from 0x80 to 0xFF gives
    the two bytes of U+0080..U+00FF. *)
Definition string_of_byte (b : ascii) : gostring :=
  if code b <? 128 then [b]
  else [ascii_of_nat (192 + code b / 64); ascii_of_nat (128 + code b mod 64)].

(** ** Object model *)

Definition OBJECT_TYPE_STRING : Z := 0.
Definition OBJECT_TYPE_INTEGER : Z := 1.
Definition OBJECT_TYPE_BOOLEAN : Z := 2.

(** The dynamic values an [interface{}] field holds in this program. The
    untyped constant [0] stored in an [interface{}] is an [int], not a
    [uint64]. *)
Inductive GoValue : Type :=
| VNil
| VString (s : gostring)
| VUint64 (n : Z)
| VBool (b : bool)
| VInt (i : Z).

Record ObjectType : Type := mkObject {
  ObjectTypeId : Z;
  ObjectValue : GoValue;
  ObjectDescriptor : gostring
}.

(** A call either returns or panics (a failed type assertion, an index out
    of range). *)
Inductive result (A : Type) : Type :=
| Returned (a : A)
| Panic.
Arguments Returned {A} a.
Arguments Panic {A}.

Definition SetString (obj : ObjectType) (s desc : gostring) : ObjectType :=
  mkObject OBJECT_TYPE_STRING (VString s) desc.

Definition SetInteger (obj : ObjectType) (i : Z) (desc : gostring) : ObjectType :=
  mkObject OBJECT_TYPE_INTEGER (VUint64 i) desc.

Definition SetBoolean (obj : ObjectType) (b : bool) (desc : gostring) : ObjectType :=
  mkObject OBJECT_TYPE_BOOLEAN (VBool b) desc.

Definition GetString (obj : ObjectType) : result (bool * gostring * gostring) :=
  if negb (ObjectTypeId obj =? OBJECT_TYPE_STRING)%Z then
    Returned (false, go "Mismatched object type", go "")
  else
    match ObjectValue obj with
    | VString s => Returned (true, s, ObjectDescriptor obj)
    | _ => Panic
    end.

Definition GetInteger (obj : ObjectType) : result (bool * Z * gostring) :=
  if negb (ObjectTypeId obj =? OBJECT_TYPE_INTEGER)%Z then
    Returned (false, 0%Z, go "Mismatch object type")
  else
    match ObjectValue obj with
    | VUint64 n => Returned (true, n, go "")
    | _ => Panic
    end.

Definition GetBoolean (obj : ObjectType) : result (bool * bool * gostring) :=
  if negb (ObjectTypeId obj =? OBJECT_TYPE_BOOLEAN)%Z then
    Returned (false, false, go "Mismatch object type")
  else
    match ObjectValue obj with
    | VBool b => Returned (true, b, go "")
    | _ => Panic
    end.

(** ** Token model *)

Definition TokenIdentifier : Z := 0.
Definition TokenQuotedString : Z := 1.
Definition TokenUint64 : Z := 2.
Definition TokenUint32 : Z := 3.
Definition TokenUint16 : Z := 4.
Definition TokenUint8 : Z := 5.
Definition TokenRegister : Z := 6.
Definition TokenMacro : Z := 7.
Definition TokenUnknown : Z := 255.

Definition TokenNames : list gostring :=
  [ go "Identifier"; go "QuotedString"; go "Uint64"; go "Uint32";
    go "Uint16"; go "Uint8"; go "Register"; go "Macro" ].

Record Token : Type := mkToken {
  Type_ : Z;
  ValueReceived : gostring
}.

Record TemplateObject : Type := mkTemplate {
  TemplateType : Z;
  TemplateValue : ObjectType;
  TemplateError : gostring
}.

(** ** Patterns

    The eight patterns of [Tokenize] are anchored concatenations of
    repeated character classes: [c] is [c{1,1}], [c*] is [c{0,}]. The
    classes other than the negated one hold ASCII characters only, and the
    quote is never a byte of a multi-byte rune, so matching byte by byte
    yields the length the rune-wise matcher yields. The capture group of
    the first pattern does not change [matches[0]], the only entry read. *)

Record CharClass : Type := mkClass {
  negated : bool;
  ranges : list (ascii * ascii)
}.

Definition in_range (c : ascii) (r : ascii * ascii) : bool :=
  (code (fst r) <=? code c) && (code c <=? code (snd r)).

Definition class_has (cc : CharClass) (c : ascii) : bool :=
  xorb (negated cc) (existsb (in_range c) (ranges cc)).

Inductive Piece : Type :=
| Rep (cc : CharClass) (lo : nat) (hi : option nat).

Definition Regexp := list Piece.

Definition one (cc : CharClass) : Piece := Rep cc 1 (Some 1).
Definition star (cc : CharClass) : Piece := Rep cc 0 None.
Definition between (lo hi : nat) (cc : CharClass) : Piece := Rep cc lo (Some hi).

Definition can_take (hi : option nat) : bool :=
  match hi with Some 0 => false | _ => true end.

(** Greedy repetition with backtracking (leftmost-first): take one more
    character when allowed and when the rest of the pattern then matches,
    otherwise stop here when [lo] repetitions are done. [k] matches the
    rest of the pattern; the result is the length of the match. *)
Fixpoint match_rep (cc : CharClass) (k : gostring -> option nat)
         (lo : nat) (hi : option nat) (s : gostring) {struct s} : option nat :=
  let stop := match lo with 0 => k s | S _ => None end in
  match s with
  | c :: s' =>
      if class_has cc c && can_take hi then
        match match_rep cc k (pred lo) (option_map pred hi) s' with
        | Some n => Some (S n)
        | None => stop
        end
      else stop
  | [] => stop
  end.

Fixpoint match_pieces (re : Regexp) (s : gostring) : option nat :=
  match re with
  | [] => Some 0
  | Rep cc lo hi :: re' => match_rep cc (match_pieces re') lo hi s
  end.

(** [regex.FindStringSubmatch(s)] for an anchored pattern: [None] is the
    nil slice, [Some m] a slice whose entry 0 is the matched text [m]. *)
Definition FindStringSubmatch (re : Regexp) (s : gostring) : option gostring :=
  match match_pieces re s with
  | Some n => Some (firstn n s)
  | None => None
  end.

Definition quote : ascii := ascii_of_nat 34.

Definition cls (rs : list (ascii * ascii)) : CharClass := mkClass false rs.
Definition lit (c : ascii) : CharClass := mkClass false [(c, c)].
Definition not_lit (c : ascii) : CharClass := mkClass true [(c, c)].

Definition hexdigit : CharClass := cls [("0", "9"); ("a", "f"); ("A", "F")]%char.

Definition patterns : list (Regexp * Z) :=
  [ ([one (lit quote); star (not_lit quote); one (lit quote)], TokenQuotedString);
    ([one (lit "@"); one (cls [("a","z"); ("A","Z")]%char);
      star (cls [("a","z"); ("A","z"); ("0","9"); ("_","_")]%char)], TokenMacro);
    ([one (cls [("a","z"); ("A","Z")]%char); one (cls [("a","z"); ("A","z")]%char);
      star (cls [("a","z"); ("A","Z"); ("0","9"); ("_","_")]%char)], TokenIdentifier);
    ([between 9 16 hexdigit], TokenUint64);
    ([between 5 8 hexdigit], TokenUint32);
    ([between 3 4 hexdigit], TokenUint16);
    ([between 1 2 hexdigit], TokenUint8);
    ([one (lit "r"); star hexdigit], TokenRegister) ].

(** ** Tokenize *)

(** The inner loop over the patterns: the first pattern that matches. *)
Fixpoint first_match (ps : list (Regexp * Z)) (remaining : gostring) : option Token :=
  match ps with
  | [] => None
  | (re, tokenType) :: ps' =>
      match FindStringSubmatch re remaining with
      | Some m => Some (mkToken tokenType m)
      | None => first_match ps' remaining
      end
  end.

Record TokState : Type := mkState {
  tokens : list Token;
  offset : nat
}.

(** One iteration of the outer loop. [remaining[0]] is read only when
    [offset < length], where [remaining] is not empty. *)
Definition Tokenize_step (input : gostring) (st : TokState) : TokState :=
  let remaining := skipn (offset st) input in
  match first_match patterns remaining with
  | Some tok =>
      mkState (tokens st ++ [tok]) (offset st + length (ValueReceived tok))
  | None =>
      mkState (tokens st ++ [mkToken TokenUnknown (string_of_byte (hd zero remaining))])
              (S (offset st))
  end.

(** The outer loop [for offset < length], run for at most [fuel]
    iterations. *)
Fixpoint Tokenize_loop (fuel : nat) (input : gostring) (st : TokState) : TokState :=
  if offset st <? length input then
    match fuel with
    | 0 => st
    | S fuel' => Tokenize_loop fuel' input (Tokenize_step input st)
    end
  else st.

Definition Tokenize_init : TokState := mkState [] 0.

(** [length input] iterations are enough (theorem [Tokenize_loop_exits]). *)
Definition Tokenize (input : gostring) : list Token :=
  tokens (Tokenize_loop (length input) input Tokenize_init).

(** ** EatComments *)

(** [strings.Index(s, sep)] for a separator of one byte: the offset of its
    first occurrence, or -1. *)
Fixpoint Index (s : gostring) (sep : ascii) : Z :=
  match s with
  | [] => (-1)%Z
  | c :: s' =>
      if Ascii.eqb c sep then 0%Z
      else let pos := Index s' sep in
           if (pos <? 0)%Z then (-1)%Z else (pos + 1)%Z
  end.

Definition EatComments (txt : gostring) : gostring :=
  let pos := Index txt ";"%char in
  if (pos >? -1)%Z then firstn (Z.to_nat pos) txt else txt.

(** ** strconv.ParseUint

    The library function, for a base from 2 to 36 and a bit size from 1 to
    64 (the calls of [ParseLine] pass 16 and 64). It returns a value and an
    error, as in Go; [None] is the nil error. *)

Inductive NumError : Type := ErrSyntax | ErrRange.

Definition maxUint64 : Z := (2 ^ 64 - 1)%Z.

Definition wrap64 (z : Z) : Z := (z mod 2 ^ 64)%Z.

(** [lower(c)] is [c | ('x' - 'X')]. *)
Definition lower (c : nat) : nat := Nat.lor c 32.

Definition digit_value (c : ascii) : option Z :=
  let n := code c in
  if (48 <=? n) && (n <=? 57) then Some (Z.of_nat (n - 48))
  else if (97 <=? lower n) && (lower n <=? 122) then Some (Z.of_nat (lower n - 97 + 10))
  else None.

Fixpoint ParseUint_loop (base cutoff maxVal n : Z) (s : gostring) : Z * option NumError :=
  match s with
  | [] => (n, None)
  | c :: s' =>
      match digit_value c with
      | None => (0%Z, Some ErrSyntax)
      | Some d =>
          if (d >=? base)%Z then (0%Z, Some ErrSyntax)
          else if (n >=? cutoff)%Z then (maxVal, Some ErrRange)
          else
            let n' := wrap64 (n * base) in
            let n1 := wrap64 (n' + d) in
            if (n1 <? n')%Z || (n1 >? maxVal)%Z then (maxVal, Some ErrRange)
            else ParseUint_loop base cutoff maxVal n1 s'
      end
  end.

Definition ParseUint (s : gostring) (base bitSize : Z) : Z * option NumError :=
  match s with
  | [] => (0%Z, Some ErrSyntax)
  | _ =>
      let cutoff := (maxUint64 / base + 1)%Z in
      let maxVal := wrap64 (wrap64 (Z.shiftl 1 bitSize) - 1) in
      ParseUint_loop base cutoff maxVal 0 s
  end.

(** ** ParseLine *)

Definition ParseTriple : Type := option (list ObjectType) * bool * gostring.

Definition invalid_hex : gostring :=
  go "The value of the register is not a valid hex number".

(** The verb [%d] of [fmt.Sprintf] on an [int]. *)
Definition fmt_d (i : Z) : gostring := go (NilZero.string_of_int (Z.to_int i)).

(** [TokenNames[i]], which panics when [i] is out of range. *)
Definition name_at (i : Z) : option gostring :=
  if (i <? 0)%Z then None else nth_error TokenNames (Z.to_nat i).

(** The state of the token loop after one token: the loop goes on with a
    longer object list, or the function has returned or panicked. *)
Inductive LoopResult : Type :=
| Completed (objList : list ObjectType)
| Exit (r : result ParseTriple).

(** The body shared by the five numeric cases of the switch: [digits] is
    the text handed to [strconv.ParseUint]. *)
Definition parse_number (kind : Z) (digits : gostring) (objList : list ObjectType)
  : LoopResult :=
  match ParseUint digits 16 64 with
  | (_, Some _) =>
      Exit (Returned (Some (objList ++ [mkObject kind (VInt 0) invalid_hex]),
                      false, go "Invalid number"))
  | (val, None) => Completed (objList ++ [mkObject kind (VUint64 val) (go "")])
  end.

(** One token of [for _, token := range tokens]; a token of a kind that
    no case lists adds nothing. [ValueReceived[1:]] panics on an empty
    text. *)
Definition token_case (token : Token) (objList : list ObjectType) : LoopResult :=
  let ty := Type_ token in
  if (ty =? TokenIdentifier)%Z then
    Completed (objList ++ [mkObject TokenIdentifier (VString (ValueReceived token)) (go "")])
  else if (ty =? TokenMacro)%Z then
    Completed (objList ++ [mkObject TokenMacro (VString (ValueReceived token)) (go "")])
  else if (ty =? TokenQuotedString)%Z then
    Completed (objList ++ [mkObject TokenQuotedString (VString (ValueReceived token)) (go "")])
  else if (ty =? TokenUint64)%Z then parse_number TokenUint64 (ValueReceived token) objList
  else if (ty =? TokenUint32)%Z then parse_number TokenUint32 (ValueReceived token) objList
  else if (ty =? TokenUint16)%Z then parse_number TokenUint16 (ValueReceived token) objList
  else if (ty =? TokenUint8)%Z then parse_number TokenUint8 (ValueReceived token) objList
  else if (ty =? TokenUnknown)%Z then Completed objList
  else if (ty =? TokenRegister)%Z then
    match ValueReceived token with
    | [] => Exit Panic
    | _ :: digits => parse_number TokenRegister digits objList
    end
  else Completed objList.

Fixpoint token_loop (toks : list Token) (objList : list ObjectType) : LoopResult :=
  match toks with
  | [] => Completed objList
  | token :: rest =>
      match token_case token objList with
      | Completed objList' => token_loop rest objList'
      | Exit r => Exit r
      end
  end.

(** The message of a type mismatch; either index into [TokenNames] may
    panic. *)
Definition mismatch_message (tt ot : Z) (label : gostring) : option gostring :=
  match name_at tt, name_at ot with
  | Some ntt, Some nto =>
      Some (go "Expected type (" ++ fmt_d tt ++ go ")" ++ ntt ++
            go " but got type (" ++ fmt_d ot ++ go ")" ++ nto ++ go ": " ++ label)
  | _, _ => None
  end.

(** [for idx, _ := range objList], from the index where [objs] starts in
    [objList] and [tpls] in [templateList]. *)
Fixpoint check_loop (objList objs : list ObjectType) (tpls : list TemplateObject)
  : result ParseTriple :=
  match objs with
  | [] => Returned (Some objList, true, go "")
  | o :: objs' =>
      match tpls with
      | [] => Panic
      | t :: tpls' =>
          if negb (ObjectTypeId o =? TemplateType t)%Z then
            match mismatch_message (TemplateType t) (ObjectTypeId o) (TemplateError t) with
            | Some msg => Returned (Some objList, false, msg)
            | None => Panic
            end
          else check_loop objList objs' tpls'
      end
  end.

(** [strings.ToLower] on a string of ASCII bytes maps ['A'..'Z'] to
    ['a'..'z'] byte by byte. *)
Definition lower_ascii (c : ascii) : ascii :=
  if (65 <=? code c) && (code c <=? 90) then ascii_of_nat (code c + 32) else c.

Section WithUnicode.

(** On a string that has a byte from 0x80 on, [strings.ToLower] is
    [strings.Map(unicode.ToLower, s)], which reads the Unicode case
    tables of the Go runtime: that path is a parameter. *)
Variable unicodeLower : gostring -> gostring.

Definition ToLower (s : gostring) : gostring :=
  if forallb is_ascii s then map lower_ascii s else unicodeLower s.

Definition ParseLine (txt : gostring) (templateList : list TemplateObject)
  : result ParseTriple :=
  let input := EatComments (ToLower txt) in
  let toks := Tokenize input in
  if length toks =? 0 then Returned (None, false, go "No tokens found")
  else
    match token_loop toks [] with
    | Exit r => r
    | Completed objList =>
        if negb (length objList =? length templateList) then
          Returned (None, false, go "Object list and template list length do not match")
        else check_loop objList objList templateList
    end.

End WithUnicode.

(** ** Definitions used to state the properties *)

(** The words a pattern denotes. *)
Fixpoint denotes (re : Regexp) (w : gostring) : Prop :=
  match re with
  | [] => w = []
  | Rep cc lo hi :: re' =>
      exists a b, w = a ++ b /\ lo <= length a /\
                  (forall h, hi = Some h -> length a <= h) /\
                  Forall (fun c => class_has cc c = true) a /\ denotes re' b
  end.

(** The token one iteration emits at [remaining], and how far it moves the
    offset. *)
Definition next_token (remaining : gostring) : Token :=
  match first_match patterns remaining with
  | Some tok => tok
  | None => mkToken TokenUnknown (string_of_byte (hd zero remaining))
  end.

Definition advance (remaining : gostring) : nat :=
  match first_match patterns remaining with
  | Some tok => length (ValueReceived tok)
  | None => 1
  end.

(** The tokens of the loop as a recursion on what remains of the input. *)
Fixpoint scan (fuel : nat) (remaining : gostring) : list Token :=
  match fuel, remaining with
  | S fuel', _ :: _ =>
      next_token remaining :: scan fuel' (skipn (advance remaining) remaining)
  | _, _ => []
  end.



(** The number a string of hexadecimal digits denotes, without bound. *)
Definition hexval_from (n : Z) (s : gostring) : Z :=
  fold_left (fun acc c => (acc * 16 + match digit_value c with Some d => d | None => 0 end)%Z) s n.

Definition hexval (s : gostring) : Z := hexval_from 0 s.

Definition is_hex (c : ascii) : bool := class_has hexdigit c.

Definition is_alpha (c : ascii) : bool :=
  ((65 <=? code c) && (code c <=? 90)) || ((97 <=? code c) && (code c <=? 122)).

Definition is_word (c : ascii) : bool :=
  is_alpha c || ((48 <=? code c) && (code c <=? 57)) || (code c =? 95).

(** The stored value has the dynamic type the discriminant announces, as
    after [SetString], [SetInteger] and [SetBoolean]. *)
Definition consistent (obj : ObjectType) : Prop :=
  (ObjectTypeId obj = OBJECT_TYPE_STRING -> exists s, ObjectValue obj = VString s) /\
  (ObjectTypeId obj = OBJECT_TYPE_INTEGER -> exists n, ObjectValue obj = VUint64 n) /\
  (ObjectTypeId obj = OBJECT_TYPE_BOOLEAN -> exists b, ObjectValue obj = VBool b).

Definition kinds_agree (o : ObjectType) (t : TemplateObject) : Prop :=
  ObjectTypeId o = TemplateType t.

(** What [ParseLine] returns from the "Invalid number" branch of a token
    of kind [kind], with [objList] built so far. *)
Definition invalid_number (kind : Z) (objList : list ObjectType) : result ParseTriple :=
  Returned (Some (objList ++ [mkObject kind (VInt 0) invalid_hex]), false,
            go "Invalid number").

(** A register marker followed by the seventeen digits of 2^64. *)
Definition overflow_register : gostring := go "r10000000000000000".

(** A kind that has a name in [TokenNames]. *)
Definition named (kind : Z) : Prop := (0 <= kind < 8)%Z.

(** The template of the demo program, with any values and labels. *)
Definition demo_template (v1 v2 v3 : ObjectType) (e1 e2 e3 : gostring)
  : list TemplateObject :=
  [ mkTemplate TokenIdentifier v1 e1;
    mkTemplate TokenRegister v2 e2;
    mkTemplate TokenRegister v3 e3 ].

(** The zero value of [ObjectType]. *)
Definition zero_object : ObjectType := mkObject 0 VNil [].

(** The nine kinds of the token model. *)
Definition token_kinds : list Z :=
  [TokenIdentifier; TokenQuotedString; TokenUint64; TokenUint32; TokenUint16;
   TokenUint8; TokenRegister; TokenMacro; TokenUnknown].

(** The kinds for which the token loop of [ParseLine] builds an object. *)
Definition builds_object (t : Token) : bool :=
  (0 <=? Type_ t)%Z && (Type_ t <? 8)%Z.

(** A character of the class [a-zA-z0-9_] of the Macro pattern. *)
Definition is_macro_word (c : ascii) : bool :=
  ((65 <=? code c) && (code c <=? 122)) || ((48 <=? code c) && (code c <=? 57)).

(** A character at which no pattern can start: not a quote, not the macro
    marker, not a letter (the register marker is one), not a digit. *)
Definition starts_nothing (c : ascii) : bool :=
  negb (Ascii.eqb c quote) && negb (Ascii.eqb c "@") &&
  negb (is_alpha c) && negb (is_hex c).

Definition is_upper (c : ascii) : bool := (65 <=? code c) && (code c <=? 90).

(** The object list that the token loop hands over: the finished list,
    or the partial list of an early return. *)
Definition produced (r : LoopResult) : list ObjectType :=
  match r with
  | Completed objList => objList
  | Exit (Returned (Some objList, _, _)) => objList
  | Exit _ => []
  end.

(** * Properties *)

(** ** The matcher *)

Section Matcher.

Variable cc : CharClass.
Variable k : gostring -> option nat.

Lemma match_rep_sound (P : gostring -> Prop) :
  (forall s n, k s = Some n -> n <= length s /\ P (firstn n s)) ->
  forall s lo hi n,
    match_rep cc k lo hi s = Some n ->
    n <= length s /\
    exists a b, firstn n s = a ++ b /\ lo <= length a /\
                (forall h, hi = Some h -> length a <= h) /\
                Forall (fun c => class_has cc c = true) a /\ P b.
Proof.
  intros Hk.
  assert (Hstop : forall s lo hi n,
             match lo with 0 => k s | S _ => None end = Some n ->
             n <= length s /\
             exists a b, firstn n s = a ++ b /\ lo <= length a /\
                         (forall h, hi = Some h -> length a <= h) /\
                         Forall (fun c => class_has cc c = true) a /\ P b).
  { intros s lo hi n H. destruct lo; [|discriminate].
    destruct (Hk _ _ H) as [Hle HP]. split; [exact Hle|].
    exists [], (firstn n s). simpl. repeat split; auto; intros; lia. }
  induction s as [|c s IH]; intros lo hi n H; simpl in H.
  - eapply Hstop; eauto.
  - destruct (class_has cc c && can_take hi) eqn:Hc; [|eapply Hstop; eauto].
    destruct (match_rep cc k (pred lo) (option_map pred hi) s) as [m|] eqn:Hm;
      [|eapply Hstop; eauto].
    injection H as <-. apply andb_prop in Hc as [Hcc Hhi].
    destruct (IH _ _ _ Hm) as [Hle (a & b & Hab & Hlo & Hh & Ha & HP)].
    split; [simpl; lia|].
    exists (c :: a), b. simpl. rewrite Hab. repeat split; auto.
    + lia.
    + intros h ->. destruct h as [|h]; [discriminate|].
      specialize (Hh h eq_refl). lia.
Qed.

(** A match of a string stays a match of any longer string. *)
Lemma match_rep_extend :
  forall u, (forall t, k t <> None -> k (t ++ u) <> None) ->
  forall t lo hi, match_rep cc k lo hi t <> None ->
                  match_rep cc k lo hi (t ++ u) <> None.
Proof.
  intros u Hk.
  assert (Hstop : forall t lo hi,
             match lo with 0 => k t | S _ => None end <> None ->
             match_rep cc k lo hi (t ++ u) <> None).
  { intros t lo hi H. destruct lo; [|congruence].
    apply Hk in H. destruct (t ++ u) as [|c s]; simpl; [exact H|].
    destruct (class_has cc c && can_take hi); [|exact H].
    destruct (match_rep cc k 0 (option_map pred hi) s); [discriminate|exact H]. }
  induction t as [|c t IH]; intros lo hi H.
  - apply Hstop. exact H.
  - simpl in H. destruct (class_has cc c && can_take hi) eqn:Hc.
    + destruct (match_rep cc k (pred lo) (option_map pred hi) t) eqn:Hm.
      * simpl. rewrite Hc.
        specialize (IH (pred lo) (option_map pred hi)). rewrite Hm in IH.
        destruct (match_rep cc k (pred lo) (option_map pred hi) (t ++ u));
          [discriminate|]. exfalso. apply IH; congruence.
      * apply (Hstop (c :: t)). exact H.
    + apply (Hstop (c :: t)). exact H.
Qed.

(** The match of a string is the match of the matched text alone. *)
Lemma match_rep_firstn :
  (forall s n, k s = Some n -> k (firstn n s) = Some n) ->
  (forall t u, k t <> None -> k (t ++ u) <> None) ->
  forall s lo hi n, match_rep cc k lo hi s = Some n ->
                    match_rep cc k lo hi (firstn n s) = Some n.
Proof.
  intros Hk1 Hk2.
  assert (Hstop : forall s lo hi n,
             match lo with 0 => k s | S _ => None end = Some n ->
             (forall c s' m, s = c :: s' -> n = S m ->
                             class_has cc c && can_take hi = true ->
                             match_rep cc k (pred lo) (option_map pred hi) (firstn m s') = None) ->
             match_rep cc k lo hi (firstn n s) = Some n).
  { intros s lo hi n H Hin. destruct lo; [|discriminate].
    apply Hk1 in H. destruct n as [|m].
    - simpl in *. exact H.
    - destruct s as [|c s']; [simpl in *; exact H|].
      simpl firstn in *. simpl.
      destruct (class_has cc c && can_take hi) eqn:Hc; [|exact H].
      pose proof (Hin c s' m eq_refl eq_refl Hc) as E. simpl in E. rewrite E. exact H. }
  induction s as [|c s IH]; intros lo hi n H.
  - apply Hstop; [exact H|]. intros; discriminate.
  - simpl in H. destruct (class_has cc c && can_take hi) eqn:Hc.
    + destruct (match_rep cc k (pred lo) (option_map pred hi) s) as [m|] eqn:Hm.
      * injection H as <-. simpl. rewrite Hc. rewrite (IH _ _ _ Hm). reflexivity.
      * apply Hstop; [exact H|]. intros c' s' m [= <- <-] -> _.
        destruct (match_rep cc k (pred lo) (option_map pred hi) (firstn m s)) eqn:Hf;
          [|reflexivity].
        exfalso.
        apply (match_rep_extend (skipn m s) (fun t => Hk2 t _) (firstn m s)
                                (pred lo) (option_map pred hi)).
        -- congruence.
        -- rewrite firstn_skipn. exact Hm.
    + apply Hstop; [exact H|]. intros c' s' m [= <- <-] _ Hc'. congruence.
Qed.

End Matcher.

Lemma match_pieces_sound (re : Regexp) :
  forall s n, match_pieces re s = Some n ->
              n <= length s /\ denotes re (firstn n s).
Proof.
  induction re as [|[cc lo hi] re IH]; intros s n H; simpl in H.
  - injection H as <-. split; [lia|reflexivity].
  - destruct (match_rep_sound cc (match_pieces re) (denotes re) IH _ _ _ _ H)
      as [Hle (a & b & Hab & Hrest)].
    split; [exact Hle|]. simpl. exists a, b. tauto.
Qed.

Lemma match_pieces_extend (re : Regexp) :
  forall t u, match_pieces re t <> None -> match_pieces re (t ++ u) <> None.
Proof.
  induction re as [|[cc lo hi] re IH]; intros t u H; simpl in *.
  - discriminate.
  - apply match_rep_extend; [intro t'; apply IH | exact H].
Qed.

Lemma match_pieces_firstn (re : Regexp) :
  forall s n, match_pieces re s = Some n -> match_pieces re (firstn n s) = Some n.
Proof.
  induction re as [|[cc lo hi] re IH]; intros s n H; simpl in *.
  - injection H as <-. reflexivity.
  - apply match_rep_firstn; [exact IH | apply match_pieces_extend | exact H].
Qed.

(** ** The pattern table *)

Lemma first_match_sound (ps : list (Regexp * Z)) (remaining : gostring) (tok : Token) :
  first_match ps remaining = Some tok ->
  exists re n, In (re, Type_ tok) ps /\ match_pieces re remaining = Some n /\
               ValueReceived tok = firstn n remaining /\ n <= length remaining /\
               denotes re (ValueReceived tok).
Proof.
  induction ps as [|[re ty] ps IH]; simpl; [discriminate|].
  unfold FindStringSubmatch.
  destruct (match_pieces re remaining) as [n|] eqn:Hm.
  - intros [= <-]. destruct (match_pieces_sound _ _ _ Hm) as [Hle Hd].
    exists re, n. simpl. auto.
  - intros H. destruct (IH H) as (re' & n & Hin & Hrest).
    exists re', n. auto.
Qed.

Lemma first_match_prefix (ps : list (Regexp * Z)) (t u : gostring) :
  first_match ps (t ++ u) = None -> first_match ps t = None.
Proof.
  induction ps as [|[re ty] ps IH]; simpl; [reflexivity|].
  unfold FindStringSubmatch.
  destruct (match_pieces re (t ++ u)) eqn:Hm; [discriminate|].
  destruct (match_pieces re t) eqn:Ht; [|exact IH].
  exfalso. apply (match_pieces_extend re t u); congruence.
Qed.

Lemma first_match_firstn (ps : list (Regexp * Z)) (remaining : gostring) (tok : Token) :
  first_match ps remaining = Some tok ->
  first_match ps (ValueReceived tok) = Some tok.
Proof.
  induction ps as [|[re ty] ps IH]; simpl; [discriminate|].
  unfold FindStringSubmatch.
  destruct (match_pieces re remaining) as [n|] eqn:Hm.
  - intros [= <-]. simpl.
    rewrite (match_pieces_firstn _ _ _ Hm).
    destruct (match_pieces_sound _ _ _ Hm) as [Hle _].
    rewrite firstn_firstn, Nat.min_id. reflexivity.
  - intros H. specialize (IH H).
    destruct (first_match_sound _ _ _ H) as (_ & n & _ & _ & Hv & _ & _).
    destruct (match_pieces re (ValueReceived tok)) eqn:Ht; [|exact IH].
    exfalso. apply (match_pieces_extend re (firstn n remaining) (skipn n remaining)).
    + rewrite <- Hv. congruence.
    + rewrite firstn_skipn. exact Hm.
Qed.

(** Every pattern of the table matches at least one character. *)
Lemma patterns_nonempty (re : Regexp) (ty : Z) (w : gostring) :
  In (re, ty) patterns -> denotes re w -> 1 <= length w.
Proof.
  intros Hin Hd. unfold patterns in Hin. simpl in Hin.
  repeat (destruct Hin as [Hin|Hin];
          [injection Hin as <- <-; simpl in Hd;
           destruct Hd as (a & b & -> & Hlo & _); rewrite length_app; lia|]).
  contradiction.
Qed.

Lemma advance_bounds (remaining : gostring) :
  remaining <> [] -> 1 <= advance remaining <= length remaining.
Proof.
  intros Hne. unfold advance.
  destruct (first_match patterns remaining) as [tok|] eqn:Hm.
  - destruct (first_match_sound _ _ _ Hm) as (re & n & Hin & _ & Hv & Hle & Hd).
    split; [eapply patterns_nonempty; eauto|].
    rewrite Hv, length_firstn. lia.
  - destruct remaining; [congruence|simpl; lia].
Qed.

Lemma advance_text (remaining : gostring) (tok : Token) :
  first_match patterns remaining = Some tok ->
  ValueReceived tok = firstn (advance remaining) remaining.
Proof.
  intros Hm. unfold advance. rewrite Hm.
  destruct (first_match_sound _ _ _ Hm) as (re & n & _ & _ & Hv & Hle & _).
  rewrite Hv at 2. rewrite length_firstn, Nat.min_l by exact Hle. exact Hv.
Qed.

(** ** The loop of Tokenize *)

Lemma Tokenize_step_eq (input : gostring) (st : TokState) :
  Tokenize_step input st =
  mkState (tokens st ++ [next_token (skipn (offset st) input)])
          (offset st + advance (skipn (offset st) input)).
Proof.
  unfold Tokenize_step, next_token, advance.
  destruct (first_match patterns (skipn (offset st) input)); [reflexivity|].
  f_equal. lia.
Qed.

Lemma remaining_nonempty (input : gostring) (off : nat) :
  off < length input -> skipn off input <> [].
Proof.
  intros Hlt Hnil. apply (f_equal (@length ascii)) in Hnil.
  rewrite length_skipn in Hnil. simpl in Hnil. lia.
Qed.

(** Every iteration moves the offset forward, and never past the end. *)
Lemma Tokenize_step_advances (input : gostring) (st : TokState) :
  offset st < length input ->
  offset st < offset (Tokenize_step input st) <= length input.
Proof.
  intros Hlt. rewrite Tokenize_step_eq. simpl.
  pose proof (advance_bounds _ (remaining_nonempty _ _ Hlt)) as Hb.
  rewrite length_skipn in Hb. lia.
Qed.

Lemma scan_nil (fuel : nat) : scan fuel [] = [].
Proof. destruct fuel; reflexivity. Qed.

Lemma scan_cons (fuel : nat) (remaining : gostring) :
  remaining <> [] ->
  scan (S fuel) remaining =
  next_token remaining :: scan fuel (skipn (advance remaining) remaining).
Proof. destruct remaining; [congruence|reflexivity]. Qed.

Lemma loop_scan (fuel : nat) :
  forall input st,
    offset st <= length input -> length input - offset st <= fuel ->
    Tokenize_loop fuel input st =
    mkState (tokens st ++ scan fuel (skipn (offset st) input)) (length input).
Proof.
  induction fuel as [|fuel IH]; intros input [toks off] Hle Hfuel.
  - cbn [Tokenize_loop scan offset tokens] in *.
    replace (off <? length input) with false by (symmetry; apply Nat.ltb_ge; lia).
    rewrite app_nil_r. f_equal. lia.
  - cbn [Tokenize_loop offset tokens] in *.
    destruct (off <? length input) eqn:Hlt.
    + apply Nat.ltb_lt in Hlt.
      pose proof (Tokenize_step_advances input (mkState toks off) Hlt) as Hadv.
      cbn [offset] in Hadv. rewrite IH by lia.
      rewrite scan_cons by (apply remaining_nonempty; exact Hlt).
      rewrite Tokenize_step_eq. cbn [offset tokens].
      rewrite <- app_assoc, skipn_skipn.
      rewrite (Nat.add_comm (advance (skipn off input)) off). reflexivity.
    + apply Nat.ltb_ge in Hlt.
      rewrite skipn_all2 by exact Hlt. rewrite scan_nil, app_nil_r. f_equal. lia.
Qed.


Lemma Tokenize_scan (input : gostring) : Tokenize input = scan (length input) input.
Proof.
  unfold Tokenize. rewrite loop_scan by (simpl; lia). reflexivity.
Qed.

(** Every emitted token is the token of one iteration at a non-empty rest
    of the input. *)
Lemma scan_In (fuel : nat) :
  forall remaining tok,
    In tok (scan fuel remaining) ->
    exists pre rest, remaining = pre ++ rest /\ rest <> [] /\ tok = next_token rest.
Proof.
  induction fuel as [|fuel IH]; intros remaining tok Hin; simpl in Hin; [contradiction|].
  destruct remaining as [|c rem]; [contradiction|].
  destruct Hin as [<-|Hin].
  - exists [], (c :: rem). repeat split. discriminate.
  - destruct (IH _ _ Hin) as (pre & rest & Heq & Hne & Htok).
    exists (firstn (advance (c :: rem)) (c :: rem) ++ pre), rest.
    rewrite <- app_assoc, <- Heq, firstn_skipn. auto.
Qed.

Lemma scan_length (fuel : nat) :
  forall remaining, length (scan fuel remaining) <= length remaining.
Proof.
  induction fuel as [|fuel IH]; intros remaining; simpl; [lia|].
  destruct remaining as [|c rem]; [simpl; lia|].
  pose proof (advance_bounds (c :: rem) ltac:(discriminate)) as Hb.
  specialize (IH (skipn (advance (c :: rem)) (c :: rem))).
  rewrite length_skipn in IH. simpl length in *. lia.
Qed.

(** On a character below 0x80 the token of an iteration holds exactly the
    text the iteration consumes. *)
Lemma next_token_text (c : ascii) (rem : gostring) :
  is_ascii c = true \/ first_match patterns (c :: rem) <> None ->
  ValueReceived (next_token (c :: rem)) = firstn (advance (c :: rem)) (c :: rem).
Proof.
  intros H. destruct (first_match patterns (c :: rem)) as [tok|] eqn:Hm.
  - unfold next_token. rewrite Hm. apply advance_text. exact Hm.
  - destruct H as [H|H]; [|congruence].
    unfold next_token, advance. rewrite Hm. simpl.
    unfold string_of_byte. unfold is_ascii in H. rewrite H. reflexivity.
Qed.

Lemma scan_concat_ascii (fuel : nat) :
  forall remaining,
    forallb is_ascii remaining = true -> length remaining <= fuel ->
    concat (map ValueReceived (scan fuel remaining)) = remaining.
Proof.
  induction fuel as [|fuel IH]; intros remaining Hascii Hfuel.
  - destruct remaining; [reflexivity|simpl in Hfuel; lia].
  - destruct remaining as [|c rem]; [reflexivity|].
    pose proof (advance_bounds (c :: rem) ltac:(discriminate)) as Hb.
    cbn [scan map concat].
    rewrite next_token_text
      by (left; simpl in Hascii; apply andb_prop in Hascii; tauto).
    rewrite IH.
    + apply firstn_skipn.
    + rewrite <- (firstn_skipn (advance (c :: rem)) (c :: rem)), forallb_app in Hascii.
      apply andb_prop in Hascii. tauto.
    + rewrite length_skipn. simpl length in *. lia.
Qed.


Lemma Tokenize_In (input : gostring) (tok : Token) :
  In tok (Tokenize input) ->
  exists pre rest, input = pre ++ rest /\ rest <> [] /\ tok = next_token rest.
Proof. rewrite Tokenize_scan. apply scan_In. Qed.

(** A text that one iteration consumes whole yields one token. *)
Lemma Tokenize_single (t : gostring) :
  t <> [] -> advance t = length t -> Tokenize t = [next_token t].
Proof.
  intros Hne Hadv. rewrite Tokenize_scan.
  destruct t as [|c t]; [congruence|].
  cbn [length]. rewrite scan_cons by exact Hne.
  rewrite Hadv, skipn_all, scan_nil. reflexivity.
Qed.

Lemma string_of_byte_ascii (c : ascii) :
  forallb is_ascii (string_of_byte c) = true -> string_of_byte c = [c].
Proof.
  unfold string_of_byte. destruct (code c <? 128) eqn:Hc; [reflexivity|].
  intros H. exfalso. cbn [forallb] in H. apply andb_prop in H as [H _].
  unfold is_ascii, code in *. apply Nat.ltb_lt in H. apply Nat.ltb_ge in Hc.
  pose proof (nat_ascii_bounded c) as Hb.
  assert (Hq : nat_of_ascii c / 64 <= 3)
    by (apply Nat.lt_succ_r, Nat.Div0.div_lt_upper_bound; lia).
  rewrite nat_ascii_embedding in H by lia. lia.
Qed.

(** ** C2: termination and consumed length *)




(** ** C8: round trip *)

(** C8, as the code has it. Every token that [Tokenize] emits, other than
    an Unknown token made from a byte from 0x80 on (so every token of an
    input of ASCII bytes), is reproduced by tokenizing its text alone: the
    result is that one token, of the same kind and the same text. *)
Theorem Tokenize_roundtrip (input : gostring) (tok : Token) :
  In tok (Tokenize input) ->
  Type_ tok <> TokenUnknown \/ forallb is_ascii (ValueReceived tok) = true ->
  Tokenize (ValueReceived tok) = [tok].
Proof.
  intros Hin Hkind.
  destruct (Tokenize_In _ _ Hin) as (pre & rest & _ & Hne & Htok).
  unfold next_token in Htok.
  destruct (first_match patterns rest) as [tok'|] eqn:Hm.
  - subst tok'.
    pose proof (first_match_firstn _ _ _ Hm) as Hself.
    destruct (first_match_sound _ _ _ Hm) as (re & n & Hre & _ & _ & _ & Hd).
    pose proof (patterns_nonempty _ _ _ Hre Hd) as Hlen.
    rewrite Tokenize_single.
    + unfold next_token. rewrite Hself. reflexivity.
    + intros Hnil. rewrite Hnil in Hlen. simpl in Hlen. lia.
    + unfold advance. rewrite Hself. reflexivity.
  - destruct rest as [|c rem]; [congruence|]. simpl in Htok.
    destruct Hkind as [Hkind|Hkind]; [subst tok; simpl in Hkind; congruence|].
    subst tok. simpl in *. rewrite (string_of_byte_ascii _ Hkind).
    assert (Hnone : first_match patterns [c] = None)
      by (apply (first_match_prefix patterns [c] rem); exact Hm).
    rewrite Tokenize_single.
    + unfold next_token. rewrite Hnone. simpl.
      rewrite (string_of_byte_ascii _ Hkind). reflexivity.
    + discriminate.
    + unfold advance. rewrite Hnone. reflexivity.
Qed.

Lemma Tokenize_roundtrip_witness :
  Tokenize (go "r10") = [mkToken TokenRegister (go "r10")].
Proof.
  apply (Tokenize_roundtrip (go "mov64 r10 r11") (mkToken TokenRegister (go "r10"))).
  - vm_compute. right. right. left. reflexivity.
  - left. discriminate.
Defined.

(** The Unknown token made from the byte 0xE9 holds the bytes C3 A9;
    tokenizing them starts with the Unknown token made from the byte C3,
    which holds C3 83. *)
Lemma Tokenize_roundtrip_fails_on_high_byte :
  ~ (forall input tok,
        In tok (Tokenize input) ->
        exists first rest,
          Tokenize (ValueReceived tok) = first :: rest /\
          Type_ first = Type_ tok /\ ValueReceived first = ValueReceived tok).
Proof.
  intros H.
  destruct (H [ascii_of_nat 233] (mkToken TokenUnknown [ascii_of_nat 195; ascii_of_nat 169]))
    as (first & rest & Htok & _ & Htext).
  - left. reflexivity.
  - vm_compute in Htok. injection Htok as <- _. discriminate Htext.
Qed.

(** ** Character classes *)

Lemma in_range_spec (c lo hi : ascii) :
  in_range c (lo, hi) = true <-> code lo <= code c <= code hi.
Proof.
  unfold in_range. cbn [fst snd].
  rewrite andb_true_iff, !Nat.leb_le. tauto.
Qed.

Lemma code_inj (c d : ascii) : code c = code d -> c = d.
Proof.
  unfold code. intros H.
  rewrite <- (ascii_nat_embedding c), <- (ascii_nat_embedding d), H. reflexivity.
Qed.

Lemma lit_spec (l c : ascii) : class_has (lit l) c = true <-> c = l.
Proof.
  unfold class_has, lit. cbn [negated ranges existsb].
  rewrite xorb_false_l, orb_false_r, in_range_spec. split.
  - intros H. apply code_inj. lia.
  - intros ->. lia.
Qed.

Lemma is_hex_spec (c : ascii) :
  is_hex c = true <->
  48 <= code c <= 57 \/ 97 <= code c <= 102 \/ 65 <= code c <= 70.
Proof.
  unfold is_hex, class_has, hexdigit, cls. cbn [negated ranges existsb].
  rewrite xorb_false_l, !orb_true_iff, !in_range_spec.
  change (code "0") with 48. change (code "9") with 57.
  change (code "a") with 97. change (code "f") with 102.
  change (code "A") with 65. change (code "F") with 70.
  intuition lia.
Qed.

(** ** strconv.ParseUint on hexadecimal digits *)

Lemma hex_digit_value (c : ascii) :
  is_hex c = true -> exists d, digit_value c = Some d /\ (0 <= d < 16)%Z.
Proof.
  rewrite is_hex_spec. unfold digit_value. generalize (code c) as n. intros n H.
  destruct ((48 <=? n) && (n <=? 57)) eqn:Hdec.
  - apply andb_prop in Hdec as [H1 H2]. apply Nat.leb_le in H1, H2.
    eexists. split; [reflexivity|]. lia.
  - assert (Hn : n = 97 \/ n = 98 \/ n = 99 \/ n = 100 \/ n = 101 \/ n = 102 \/
                 n = 65 \/ n = 66 \/ n = 67 \/ n = 68 \/ n = 69 \/ n = 70).
    { apply andb_false_iff in Hdec. rewrite !Nat.leb_gt in Hdec. lia. }
    repeat (destruct Hn as [->|Hn]; [eexists; split; [vm_compute; reflexivity|lia]|]).
    subst n. eexists; split; [vm_compute; reflexivity|lia].
Qed.

Lemma hexval_from_cons (n : Z) (c : ascii) (s : gostring) (d : Z) :
  digit_value c = Some d -> hexval_from n (c :: s) = hexval_from (n * 16 + d) s.
Proof. intros H. unfold hexval_from. simpl. rewrite H. reflexivity. Qed.

Lemma hexval_from_bounds (s : gostring) :
  Forall (fun c => is_hex c = true) s ->
  forall n, (0 <= n)%Z ->
            (n <= hexval_from n s < (n + 1) * 16 ^ Z.of_nat (length s))%Z.
Proof.
  induction 1 as [|c s Hc Hs IH]; intros n Hn.
  - unfold hexval_from. simpl. lia.
  - destruct (hex_digit_value c Hc) as (d & Hd & Hrange).
    rewrite (hexval_from_cons _ _ _ _ Hd).
    specialize (IH (n * 16 + d)%Z ltac:(lia)).
    cbn [length]. rewrite Nat2Z.inj_succ, Z.pow_succ_r by lia.
    assert (0 < 16 ^ Z.of_nat (length s))%Z by (apply Z.pow_pos_nonneg; lia).
    nia.
Qed.

Lemma ParseUint_loop_hex (s : gostring) :
  Forall (fun c => is_hex c = true) s ->
  forall n, (0 <= n < 2 ^ 64)%Z ->
    ParseUint_loop 16 (2 ^ 60) (2 ^ 64 - 1) n s =
    if (hexval_from n s <? 2 ^ 64)%Z then (hexval_from n s, None)
    else ((2 ^ 64 - 1)%Z, Some ErrRange).
Proof.
  induction 1 as [|c s Hc Hs IH]; intros n Hn.
  - unfold hexval_from. cbn [fold_left].
    destruct (Z.ltb_spec n (2 ^ 64)); [reflexivity|lia].
  - destruct (hex_digit_value c Hc) as (d & Hd & Hrange).
    rewrite (hexval_from_cons _ _ _ _ Hd).
    cbn [ParseUint_loop]. rewrite Hd, !Z.geb_leb.
    destruct (Z.leb_spec 16 d) as [Hbig|_]; [lia|].
    destruct (Z.leb_spec (2 ^ 60) n) as [Hcut|Hcut].
    + pose proof (hexval_from_bounds s Hs (n * 16 + d)%Z ltac:(lia)) as Hb.
      destruct (Z.ltb_spec (hexval_from (n * 16 + d) s) (2 ^ 64)); [lia|reflexivity].
    + unfold wrap64. rewrite (Z.mod_small (n * 16)) by lia.
      rewrite (Z.mod_small (n * 16 + d)) by lia. rewrite Z.gtb_ltb.
      destruct (Z.ltb_spec (n * 16 + d) (n * 16)) as [Hlt|_]; [lia|].
      destruct (Z.ltb_spec (2 ^ 64 - 1) (n * 16 + d)) as [Hgt|_]; [lia|].
      cbn [orb]. apply IH. lia.
Qed.

(** On one or more hexadecimal digits the parse fails exactly when the
    number does not fit in 64 bits. *)
Lemma ParseUint_hex (s : gostring) :
  s <> [] -> Forall (fun c => is_hex c = true) s ->
  ParseUint s 16 64 =
  if (hexval s <? 2 ^ 64)%Z then (hexval s, None)
  else ((2 ^ 64 - 1)%Z, Some ErrRange).
Proof.
  intros Hne Hs. unfold ParseUint. destruct s as [|c s]; [congruence|].
  change (maxUint64 / 16 + 1)%Z with (2 ^ 60)%Z.
  change (wrap64 (wrap64 (Z.shiftl 1 64) - 1)) with (2 ^ 64 - 1)%Z.
  apply ParseUint_loop_hex; [exact Hs|]. lia.
Qed.

Lemma hexval_fits (s : gostring) :
  Forall (fun c => is_hex c = true) s -> length s <= 16 ->
  (0 <= hexval s < 2 ^ 64)%Z.
Proof.
  intros Hs Hlen.
  pose proof (hexval_from_bounds s Hs 0%Z ltac:(lia)) as Hb. fold (hexval s) in Hb.
  assert (16 ^ Z.of_nat (length s) <= 16 ^ 16)%Z
    by (apply Z.pow_le_mono_r; lia).
  change (16 ^ 16)%Z with (2 ^ 64)%Z in *. lia.
Qed.

(** ** The shape of the emitted tokens *)

Lemma Tokenize_token_pattern (input : gostring) (tok : Token) :
  In tok (Tokenize input) ->
  (exists c, tok = mkToken TokenUnknown (string_of_byte c)) \/
  (exists re, In (re, Type_ tok) patterns /\ denotes re (ValueReceived tok)).
Proof.
  intros Hin. destruct (Tokenize_In _ _ Hin) as (pre & rest & _ & Hne & ->).
  unfold next_token. destruct (first_match patterns rest) as [tok|] eqn:Hm.
  - right. destruct (first_match_sound _ _ _ Hm) as (re & n & Hre & _ & _ & _ & Hd).
    exists re. auto.
  - left. eexists. reflexivity.
Qed.

Lemma hex_pattern_shape (lo hi : nat) (w : gostring) :
  denotes [between lo hi hexdigit] w ->
  lo <= length w <= hi /\ Forall (fun c => is_hex c = true) w.
Proof.
  simpl. intros (a & b & -> & Hlo & Hhi & Ha & ->).
  rewrite app_nil_r. specialize (Hhi hi eq_refl). auto.
Qed.

Lemma one_shape (cc : CharClass) (re : Regexp) (w : gostring) :
  denotes (one cc :: re) w ->
  exists c w', w = c :: w' /\ class_has cc c = true /\ denotes re w'.
Proof.
  simpl. intros (a & b & -> & Hlo & Hhi & Ha & Hb).
  specialize (Hhi 1 eq_refl).
  destruct a as [|c [|c' a]]; simpl in *; try lia.
  exists c, b. inversion Ha. auto.
Qed.

Lemma star_shape (cc : CharClass) (w : gostring) :
  denotes [star cc] w -> Forall (fun c => class_has cc c = true) w.
Proof.
  simpl. intros (a & b & -> & _ & _ & Ha & ->). rewrite app_nil_r. exact Ha.
Qed.

(** A token of one of the four hexadecimal kinds holds 1 to 16
    hexadecimal digits. *)
Lemma uint_token_shape (re : Regexp) (ty : Z) (w : gostring) :
  In (re, ty) patterns ->
  In ty [TokenUint64; TokenUint32; TokenUint16; TokenUint8] ->
  denotes re w ->
  1 <= length w <= 16 /\ Forall (fun c => is_hex c = true) w.
Proof.
  intros Hre Hty Hd. unfold patterns in Hre. simpl in Hre, Hty.
  repeat (destruct Hre as [Hre|Hre];
          [injection Hre as <- <-;
           try (apply hex_pattern_shape in Hd; split; [lia|tauto]);
           exfalso; repeat (destruct Hty as [Hty|Hty]; [discriminate Hty|]); exact Hty|]).
  contradiction.
Qed.

(** A Register token holds the marker and then hexadecimal digits. *)
Lemma register_token_shape (re : Regexp) (w : gostring) :
  In (re, TokenRegister) patterns -> denotes re w ->
  exists digits, w = "r"%char :: digits /\ Forall (fun c => is_hex c = true) digits.
Proof.
  intros Hre Hd. unfold patterns in Hre. simpl in Hre.
  repeat (destruct Hre as [Hre|Hre]; [try discriminate Hre|]); [|contradiction].
  injection Hre as <-.
  apply one_shape in Hd as (c & w' & -> & Hc & Hd).
  apply lit_spec in Hc as ->. apply star_shape in Hd. eauto.
Qed.

Lemma pattern_kind (re : Regexp) (ty : Z) :
  In (re, ty) patterns ->
  In ty [TokenQuotedString; TokenMacro; TokenIdentifier; TokenUint64;
         TokenUint32; TokenUint16; TokenUint8; TokenRegister].
Proof.
  intros Hre. unfold patterns in Hre. simpl in Hre. simpl.
  repeat (destruct Hre as [Hre|Hre]; [injection Hre as <- <-; tauto|]).
  contradiction.
Qed.

(** ** The token loop of ParseLine *)

Lemma parse_number_ok (kind : Z) (digits : gostring) (objList : list ObjectType) (v : Z) :
  ParseUint digits 16 64 = (v, None) ->
  parse_number kind digits objList =
  Completed (objList ++ [mkObject kind (VUint64 v) (go "")]).
Proof. unfold parse_number. intros ->. reflexivity. Qed.

Lemma parse_number_err (kind : Z) (digits : gostring) (objList : list ObjectType) :
  snd (ParseUint digits 16 64) <> None ->
  parse_number kind digits objList = Exit (invalid_number kind objList).
Proof.
  unfold parse_number. destruct (ParseUint digits 16 64) as [v [e|]]; simpl.
  - reflexivity.
  - congruence.
Qed.

Lemma token_case_uint (tok : Token) (objList : list ObjectType) :
  In (Type_ tok) [TokenUint64; TokenUint32; TokenUint16; TokenUint8] ->
  token_case tok objList = parse_number (Type_ tok) (ValueReceived tok) objList.
Proof.
  destruct tok as [ty text]. simpl.
  intros [<-|[<-|[<-|[<-|[]]]]]; reflexivity.
Qed.

Lemma token_case_register (tok : Token) (objList : list ObjectType) :
  Type_ tok = TokenRegister ->
  token_case tok objList =
  match ValueReceived tok with
  | [] => Exit Panic
  | _ :: digits => parse_number TokenRegister digits objList
  end.
Proof. destruct tok as [ty text]. simpl. intros ->. reflexivity. Qed.

Lemma token_case_text (tok : Token) (objList : list ObjectType) :
  In (Type_ tok) [TokenQuotedString; TokenMacro; TokenIdentifier] ->
  token_case tok objList =
  Completed (objList ++ [mkObject (Type_ tok) (VString (ValueReceived tok)) (go "")]).
Proof.
  destruct tok as [ty text]. simpl.
  intros [<-|[<-|[<-|[]]]]; reflexivity.
Qed.

Lemma token_loop_app (pre rest : list Token) :
  forall objList,
    token_loop (pre ++ rest) objList =
    match token_loop pre objList with
    | Completed objList' => token_loop rest objList'
    | Exit r => Exit r
    end.
Proof.
  induction pre as [|t pre IH]; intros objList; simpl; [reflexivity|].
  destruct (token_case t objList); [apply IH|reflexivity].
Qed.

(** The parse of the hexadecimal digits of an emitted token. *)
Lemma uint_token_parse (input : gostring) (tok : Token) :
  In tok (Tokenize input) ->
  In (Type_ tok) [TokenUint64; TokenUint32; TokenUint16; TokenUint8] ->
  1 <= length (ValueReceived tok) <= 16 /\
  Forall (fun c => is_hex c = true) (ValueReceived tok) /\
  (0 <= hexval (ValueReceived tok) < 2 ^ 64)%Z /\
  ParseUint (ValueReceived tok) 16 64 = (hexval (ValueReceived tok), None).
Proof.
  intros Hin Hty.
  destruct (Tokenize_token_pattern _ _ Hin) as [(c & ->)|(re & Hre & Hd)].
  - exfalso. simpl in Hty. repeat (destruct Hty as [Hty|Hty]; [discriminate Hty|]).
    exact Hty.
  - destruct (uint_token_shape _ _ _ Hre Hty Hd) as [Hlen Hhex].
    pose proof (hexval_fits _ Hhex ltac:(lia)) as Hfit.
    repeat split; try tauto; try lia.
    rewrite ParseUint_hex; auto.
    + replace (hexval (ValueReceived tok) <? 2 ^ 64)%Z with true
        by (symmetry; apply Z.ltb_lt; lia).
      reflexivity.
    + intros Hnil. rewrite Hnil in Hlen. simpl in Hlen. lia.
Qed.

Lemma register_token_parse (digits : gostring) (objList : list ObjectType) :
  Forall (fun c => is_hex c = true) digits ->
  (digits = [] \/ (2 ^ 64 <= hexval digits)%Z ->
   parse_number TokenRegister digits objList = Exit (invalid_number TokenRegister objList)) /\
  (digits <> [] -> (hexval digits < 2 ^ 64)%Z ->
   parse_number TokenRegister digits objList =
   Completed (objList ++ [mkObject TokenRegister (VUint64 (hexval digits)) (go "")])).
Proof.
  intros Hhex. split.
  - intros Hfail. apply parse_number_err.
    destruct digits as [|c digits]; [simpl; discriminate|].
    destruct Hfail as [Hnil|Hbig]; [discriminate|].
    rewrite ParseUint_hex by (auto; discriminate).
    replace (hexval (c :: digits) <? 2 ^ 64)%Z with false
      by (symmetry; apply Z.ltb_ge; lia).
    simpl. discriminate.
  - intros Hne Hfit. apply parse_number_ok.
    rewrite ParseUint_hex by auto.
    replace (hexval digits <? 2 ^ 64)%Z with true by (symmetry; apply Z.ltb_lt; lia).
    reflexivity.
Qed.

(** ** C10: where the parse of a number can fail *)

(** C10, as the code has it. A token of kind Uint64, Uint32, Uint16 or
    Uint8 that [Tokenize] emits holds 1 to 16 hexadecimal digits, its
    value fits in 64 bits and the base-16 parse succeeds, so the
    "Invalid number" branch is not taken for it. For the tokens that
    [Tokenize] emits the branch is taken exactly for a Register token
    whose digits after the marker are none, or denote a number that does
    not fit in 64 bits. *)
Theorem invalid_number_reachability
        (input : gostring) (tok : Token) (objList : list ObjectType) :
  In tok (Tokenize input) ->
  (In (Type_ tok) [TokenUint64; TokenUint32; TokenUint16; TokenUint8] ->
   1 <= length (ValueReceived tok) <= 16 /\
   Forall (fun c => is_hex c = true) (ValueReceived tok) /\
   (0 <= hexval (ValueReceived tok) < 2 ^ 64)%Z /\
   ParseUint (ValueReceived tok) 16 64 = (hexval (ValueReceived tok), None) /\
   token_case tok objList =
   Completed (objList ++
              [mkObject (Type_ tok) (VUint64 (hexval (ValueReceived tok))) (go "")])) /\
  (forall r,
      token_case tok objList = Exit r <->
      r = invalid_number TokenRegister objList /\
      Type_ tok = TokenRegister /\
      exists digits,
        ValueReceived tok = "r"%char :: digits /\
        Forall (fun c => is_hex c = true) digits /\
        (digits = [] \/ (2 ^ 64 <= hexval digits)%Z)).
Proof.
  intros Hin.
  assert (Huint : In (Type_ tok) [TokenUint64; TokenUint32; TokenUint16; TokenUint8] ->
                  1 <= length (ValueReceived tok) <= 16 /\
                  Forall (fun c => is_hex c = true) (ValueReceived tok) /\
                  (0 <= hexval (ValueReceived tok) < 2 ^ 64)%Z /\
                  ParseUint (ValueReceived tok) 16 64 = (hexval (ValueReceived tok), None) /\
                  token_case tok objList =
                  Completed (objList ++
                    [mkObject (Type_ tok) (VUint64 (hexval (ValueReceived tok))) (go "")])).
  { intros Hty. destruct (uint_token_parse _ _ Hin Hty) as (H1 & H2 & H3 & H4).
    repeat split; try tauto; try lia.
    rewrite token_case_uint by exact Hty. apply parse_number_ok. exact H4. }
  split; [exact Huint|]. intros r. split.
  - intros Hexit.
    destruct (Tokenize_token_pattern _ _ Hin) as [(c & ->)|(re & Hre & Hd)];
      [discriminate Hexit|].
    pose proof (pattern_kind _ _ Hre) as Hkind. simpl in Hkind.
    destruct Hkind as [Hk|[Hk|[Hk|[Hk|[Hk|[Hk|[Hk|[Hk|[]]]]]]]]].
    1-3: rewrite token_case_text in Hexit by (rewrite <- Hk; simpl; tauto);
         discriminate Hexit.
    1-4: destruct Huint as (_ & _ & _ & _ & Hc); [rewrite <- Hk; simpl; tauto|];
         rewrite Hc in Hexit; discriminate Hexit.
    rewrite <- Hk in Hre. symmetry in Hk.
    destruct (register_token_shape _ _ Hre Hd) as (digits & Htext & Hhex).
    rewrite token_case_register, Htext in Hexit by exact Hk.
    destruct (register_token_parse digits objList Hhex) as [Hfail Hok].
    destruct digits as [|c digits].
    + rewrite Hfail in Hexit by tauto. injection Hexit as <-.
      repeat split; auto. exists []. auto.
    + destruct (Z.lt_ge_cases (hexval (c :: digits)) (2 ^ 64)) as [Hlt|Hge].
      * rewrite Hok in Hexit by (auto; discriminate). discriminate Hexit.
      * rewrite Hfail in Hexit by tauto. injection Hexit as <-.
        repeat split; auto. exists (c :: digits). auto.
  - intros (-> & Hk & digits & Htext & Hhex & Hfail).
    rewrite token_case_register, Htext by exact Hk.
    apply register_token_parse; assumption.
Qed.

Lemma invalid_number_reachability_witness :
  token_case (mkToken TokenRegister (go "r")) [] = Exit (invalid_number TokenRegister []).
Proof.
  apply (proj2 (invalid_number_reachability
                  (go "ab r") (mkToken TokenRegister (go "r")) []
                  ltac:(vm_compute; tauto))).
  repeat split. exists []. repeat split; auto.
Defined.

(** A Register token of seventeen hexadecimal digits: its text is not the
    marker alone, and its number, 2^64, does not fit in 64 bits. *)
Lemma invalid_number_on_register_overflow :
  Tokenize overflow_register = [mkToken TokenRegister overflow_register] /\
  overflow_register <> go "r" /\
  token_case (mkToken TokenRegister overflow_register) [] =
    Exit (invalid_number TokenRegister []) /\
  ParseLine (fun s => s) overflow_register [] = invalid_number TokenRegister [].
Proof. repeat split. discriminate. Qed.

(** ** C6: a failed parse of a number stops the line *)

(** C6. When the base-16 parse of the text of a numeric token fails (the
    whole text for Uint64, Uint32, Uint16 and Uint8, the text after the
    marker for Register), the token loop stops there: with [objs] the
    objects of the tokens before it, [ParseLine] returns [objs] followed
    by one object of that token's kind holding the integer 0 and a
    non-empty descriptor, success=false and the message "Invalid number",
    whatever tokens [post] follow. *)
Theorem ParseLine_stops_at_invalid_number
        (pre post : list Token) (tok : Token) (objs : list ObjectType) (digits : gostring) :
  token_loop pre [] = Completed objs ->
  (In (Type_ tok) [TokenUint64; TokenUint32; TokenUint16; TokenUint8] /\
   digits = ValueReceived tok) \/
  (Type_ tok = TokenRegister /\ exists marker, ValueReceived tok = marker :: digits) ->
  snd (ParseUint digits 16 64) <> None ->
  token_loop (pre ++ tok :: post) [] =
    Exit (Returned (Some (objs ++ [mkObject (Type_ tok) (VInt 0) invalid_hex]),
                    false, go "Invalid number")) /\
  invalid_hex <> [] /\
  forall unicodeLower txt templateList,
    Tokenize (EatComments (ToLower unicodeLower txt)) = pre ++ tok :: post ->
    ParseLine unicodeLower txt templateList =
    Returned (Some (objs ++ [mkObject (Type_ tok) (VInt 0) invalid_hex]),
              false, go "Invalid number").
Proof.
  intros Hpre Hkind Hfail.
  assert (Hloop : token_loop (pre ++ tok :: post) [] =
                  Exit (invalid_number (Type_ tok) objs)).
  { rewrite token_loop_app, Hpre. cbn [token_loop].
    destruct Hkind as [[Hty ->]|[Hty (marker & Htext)]].
    - rewrite token_case_uint by exact Hty.
      rewrite parse_number_err by exact Hfail. reflexivity.
    - rewrite token_case_register, Htext by exact Hty.
      rewrite parse_number_err by exact Hfail. rewrite Hty. reflexivity. }
  split; [exact Hloop|]. split; [discriminate|].
  intros unicodeLower txt templateList Htoks.
  unfold ParseLine. rewrite Htoks, Hloop.
  destruct pre; reflexivity.
Qed.

Lemma ParseLine_stops_at_invalid_number_witness :
  ParseLine (fun s => s) (go "ab r 12") [] =
  Returned (Some [mkObject TokenIdentifier (VString (go "ab")) (go "");
                  mkObject TokenRegister (VInt 0) invalid_hex],
            false, go "Invalid number").
Proof.
  refine (proj2 (proj2 (ParseLine_stops_at_invalid_number
            [mkToken TokenIdentifier (go "ab"); mkToken TokenUnknown (go " ")]
            [mkToken TokenUnknown (go " "); mkToken TokenUint8 (go "12")]
            (mkToken TokenRegister (go "r"))
            [mkObject TokenIdentifier (VString (go "ab")) (go "")]
            [] _ _ _)) (fun s => s) (go "ab r 12") [] _).
  - reflexivity.
  - right. split; [reflexivity|]. exists "r"%char. reflexivity.
  - simpl. discriminate.
  - reflexivity.
Defined.

(** ** C1: success of the validation *)

Lemma positions_agree (objs : list ObjectType) :
  forall tpls,
    Forall2 kinds_agree objs tpls <->
    length objs = length tpls /\
    forall idx o t, nth_error objs idx = Some o -> nth_error tpls idx = Some t ->
                    ObjectTypeId o = TemplateType t.
Proof.
  induction objs as [|o objs IH]; intros [|t tpls]; split.
  - intros _. split; [reflexivity|]. intros [|idx]; discriminate.
  - constructor.
  - inversion 1.
  - intros [Hlen _]. discriminate.
  - inversion 1.
  - intros [Hlen _]. discriminate.
  - inversion 1 as [|? ? ? ? Hhd Htl]; subst. apply IH in Htl as [Hlen Hpos].
    split; [simpl; congruence|].
    intros [|idx] o' t'; simpl.
    + intros [= <-] [= <-]. exact Hhd.
    + apply Hpos.
  - intros [Hlen Hpos]. constructor.
    + apply (Hpos 0); reflexivity.
    + apply IH. split; [simpl in Hlen; congruence|].
      intros idx. apply (Hpos (S idx)).
Qed.

Lemma check_loop_success (objList objs : list ObjectType) :
  forall tpls out msg,
    length objs = length tpls ->
    (check_loop objList objs tpls = Returned (out, true, msg) <->
     Forall2 kinds_agree objs tpls /\ out = Some objList /\ msg = go "").
Proof.
  induction objs as [|o objs IH]; intros [|t tpls] out msg Hlen; try discriminate.
  - simpl. split.
    + intros [= <- <-]. repeat split. constructor.
    + intros (_ & -> & ->). reflexivity.
  - cbn [check_loop]. rewrite Forall2_cons_iff.
    change (kinds_agree o t) with (ObjectTypeId o = TemplateType t).
    destruct (Z.eqb_spec (ObjectTypeId o) (TemplateType t)) as [Hk|Hk]; cbn [negb].
    + rewrite IH by (simpl in Hlen; congruence). tauto.
    + split; [|tauto].
      destruct (mismatch_message _ _ _); discriminate.
Qed.

Lemma token_case_exit_fails (tok : Token) (objList : list ObjectType) (r : result ParseTriple) :
  token_case tok objList = Exit r ->
  r = Panic \/ exists kind, r = invalid_number kind objList.
Proof.
  assert (Hnum : forall kind digits,
             parse_number kind digits objList = Exit r ->
             r = Panic \/ exists kind, r = invalid_number kind objList).
  { intros kind digits. unfold parse_number.
    destruct (ParseUint digits 16 64) as [v [e|]]; [|discriminate].
    intros [= <-]. right. exists kind. reflexivity. }
  unfold token_case.
  repeat match goal with
         | |- context [if ?b then _ else _] => destruct b
         end; try discriminate; try apply Hnum.
  destruct (ValueReceived tok); [|apply Hnum].
  intros [= <-]. left. reflexivity.
Qed.

Lemma token_loop_exit_fails (toks : list Token) :
  forall objList r,
    token_loop toks objList = Exit r ->
    r = Panic \/ exists kind objs, r = invalid_number kind objs.
Proof.
  induction toks as [|tok toks IH]; intros objList r; simpl; [discriminate|].
  destruct (token_case tok objList) as [objList'|r'] eqn:Hcase.
  - apply IH.
  - intros [= <-]. destruct (token_case_exit_fails _ _ _ Hcase) as [->|[kind ->]]; eauto.
Qed.

(** C1. [ParseLine] returns success=true exactly when there are tokens,
    every token is converted without failure, the object list it produced
    and the template have the same length, and at every position the
    kind of the object is the kind the template entry expects; it then
    returns that whole object list and an empty error string. *)
Theorem ParseLine_success_iff
        (unicodeLower : gostring -> gostring) (txt : gostring)
        (templateList : list TemplateObject)
        (out : option (list ObjectType)) (msg : gostring) :
  ParseLine unicodeLower txt templateList = Returned (out, true, msg) <->
  exists objList,
    Tokenize (EatComments (ToLower unicodeLower txt)) <> [] /\
    token_loop (Tokenize (EatComments (ToLower unicodeLower txt))) [] = Completed objList /\
    length objList = length templateList /\
    (forall idx o t,
        nth_error objList idx = Some o -> nth_error templateList idx = Some t ->
        ObjectTypeId o = TemplateType t) /\
    out = Some objList /\ msg = go "".
Proof.
  unfold ParseLine.
  destruct (Tokenize (EatComments (ToLower unicodeLower txt))) as [|tok toks] eqn:Htoks.
  { simpl. split; [discriminate|]. intros (objList & Hne & _). congruence. }
  cbn [length Nat.eqb].
  destruct (token_loop (tok :: toks) []) as [objList|r] eqn:Hloop.
  - destruct (length objList =? length templateList) eqn:Hlen; cbn [negb].
    + apply Nat.eqb_eq in Hlen. rewrite check_loop_success by exact Hlen.
      rewrite positions_agree. split.
      * intros ((_ & Hpos) & -> & ->). exists objList. repeat split; auto. discriminate.
      * intros (objList' & _ & [= <-] & _ & Hpos & -> & ->). auto.
    + apply Nat.eqb_neq in Hlen. split; [discriminate|].
      intros (objList' & _ & [= <-] & Hlen' & _). contradiction.
  - split.
    + intros ->. destruct (token_loop_exit_fails _ _ _ Hloop) as [H|(kind & objs & H)];
        discriminate H.
    + intros (objList & _ & H & _). discriminate H.
Qed.

(** ** C4: the empty-input error *)

Lemma Tokenize_nil_iff (input : gostring) : Tokenize input = [] <-> input = [].
Proof.
  split; [|intros ->; reflexivity].
  rewrite Tokenize_scan. destruct input as [|c input]; [reflexivity|].
  cbn [length]. rewrite scan_cons; discriminate.
Qed.

Lemma Index_lower_bound (s : gostring) (sep : ascii) : (-1 <= Index s sep)%Z.
Proof.
  induction s as [|c s IH]; simpl; [lia|].
  destruct (Ascii.eqb c sep); [lia|].
  destruct (Index s sep <? 0)%Z eqn:Hneg; [lia|]. apply Z.ltb_ge in Hneg. lia.
Qed.

Lemma EatComments_nil_iff (txt : gostring) :
  EatComments txt = [] <-> txt = [] \/ exists rest, txt = ";"%char :: rest.
Proof.
  unfold EatComments. destruct txt as [|c txt].
  - simpl. split; auto.
  - cbn [Index]. destruct (Ascii.eqb c ";") eqn:Hc.
    + apply Ascii.eqb_eq in Hc as ->. simpl. split; eauto.
    + apply Ascii.eqb_neq in Hc.
      pose proof (Index_lower_bound txt ";"%char) as Hlb.
      assert (Hnot : ~ (c :: txt = [] \/ exists rest, c :: txt = ";"%char :: rest)).
      { intros [H|[rest H]]; [discriminate|]. injection H as H _. contradiction. }
      destruct (Index txt ";" <? 0)%Z eqn:Hneg.
      * simpl. split; [discriminate|tauto].
      * apply Z.ltb_ge in Hneg.
        replace (Index txt ";" + 1 >? -1)%Z with true
          by (symmetry; rewrite Z.gtb_ltb; apply Z.ltb_lt; lia).
        rewrite Z2Nat.inj_add, Nat.add_comm by lia. simpl.
        split; [discriminate|tauto].
Qed.

Lemma lower_ascii_semicolon (c : ascii) : lower_ascii c = ";"%char <-> c = ";"%char.
Proof.
  split; [|intros ->; reflexivity].
  unfold lower_ascii. destruct ((65 <=? code c) && (code c <=? 90)) eqn:Hup; [|auto].
  intros H. exfalso. apply andb_prop in Hup as [H1 H2]. apply Nat.leb_le in H1, H2.
  apply (f_equal code) in H. unfold code in *.
  rewrite nat_ascii_embedding in H by lia.
  change (nat_of_ascii ";") with 59 in H. lia.
Qed.

Lemma check_loop_out (objList objs : list ObjectType) :
  forall tpls out ok msg,
    check_loop objList objs tpls = Returned (out, ok, msg) -> out = Some objList.
Proof.
  induction objs as [|o objs IH]; intros [|t tpls] out ok msg; simpl;
    try discriminate; try (intros [= <- _ _]; reflexivity).
  destruct (negb (ObjectTypeId o =? TemplateType t)%Z); [|apply IH].
  destruct (mismatch_message _ _ _); [|discriminate].
  intros [= <- _ _]. reflexivity.
Qed.

Lemma token_loop_unknown (toks : list Token) (objList : list ObjectType) :
  Forall (fun t => Type_ t = TokenUnknown) toks ->
  token_loop toks objList = Completed objList.
Proof.
  induction 1 as [|[ty text] toks Hty _ IH]; simpl; [reflexivity|].
  simpl in Hty. subst ty. exact IH.
Qed.

(** C4, as the code has it. [ParseLine] fails with "No tokens found",
    success=false and a nil object list exactly when the text before the
    first comment delimiter is empty: for an input of ASCII bytes, when
    the line is empty or starts with the delimiter. A line whose text
    before the delimiter is not empty and holds no recognizable character
    (white space only, say) yields Unknown tokens, which are skipped: the
    object list is empty, and the result is success with an empty list
    for an empty template, the length-mismatch error otherwise. *)
Theorem ParseLine_no_tokens
        (unicodeLower : gostring -> gostring) (txt : gostring)
        (templateList : list TemplateObject) :
  (ParseLine unicodeLower txt templateList = Returned (None, false, go "No tokens found")
   <-> EatComments (ToLower unicodeLower txt) = []) /\
  (forallb is_ascii txt = true ->
   (EatComments (ToLower unicodeLower txt) = []
    <-> txt = [] \/ exists rest, txt = ";"%char :: rest)) /\
  (EatComments (ToLower unicodeLower txt) <> [] ->
   Forall (fun t => Type_ t = TokenUnknown)
          (Tokenize (EatComments (ToLower unicodeLower txt))) ->
   ParseLine unicodeLower txt templateList =
   if length templateList =? 0 then Returned (Some [], true, go "")
   else Returned (None, false, go "Object list and template list length do not match")).
Proof.
  split; [|split].
  - rewrite <- Tokenize_nil_iff. unfold ParseLine.
    destruct (Tokenize (EatComments (ToLower unicodeLower txt))) as [|tok toks] eqn:Htoks.
    + simpl. tauto.
    + cbn [length Nat.eqb]. split; [|discriminate]. intros H. exfalso.
      destruct (token_loop (tok :: toks) []) as [objList|r] eqn:Hloop.
      * destruct (negb (length objList =? length templateList)).
        -- vm_compute in H. discriminate H.
        -- apply check_loop_out in H. discriminate H.
      * subst r. destruct (token_loop_exit_fails _ _ _ Hloop) as [H|(kind & objs & H)];
          discriminate H.
  - intros Hascii. unfold ToLower. rewrite Hascii, EatComments_nil_iff.
    destruct txt as [|c txt]; simpl; [tauto|].
    split; intros [H|[rest H]]; try discriminate; right.
    + injection H as H _. apply lower_ascii_semicolon in H as ->. eauto.
    + injection H as -> _. eauto.
  - intros Hne Hunknown. unfold ParseLine.
    rewrite (token_loop_unknown _ _ Hunknown).
    destruct (Tokenize (EatComments (ToLower unicodeLower txt))) eqn:Htoks.
    + apply Tokenize_nil_iff in Htoks. contradiction.
    + cbn [length Nat.eqb]. destruct templateList; reflexivity.
Qed.

Lemma ParseLine_no_tokens_witness :
  ParseLine (fun s => s) (go "; only a comment") [] =
    Returned (None, false, go "No tokens found") /\
  ParseLine (fun s => s) (go "  ") [] = Returned (Some [], true, go "").
Proof.
  split.
  - apply (proj1 (ParseLine_no_tokens (fun s => s) (go "; only a comment") [])).
    reflexivity.
  - refine (proj2 (proj2 (ParseLine_no_tokens (fun s => s) (go "  ") [])) _ _).
    + discriminate.
    + repeat constructor.
Defined.

(** A line of two spaces has no recognizable character: both tokens are
    Unknown, the token list is not empty, and the line is no empty
    input. *)
Lemma whitespace_line_is_not_empty_input :
  Forall (fun t => Type_ t = TokenUnknown)
         (Tokenize (EatComments (ToLower (fun s => s) (go "  ")))) /\
  ParseLine (fun s => s) (go "  ") [] = Returned (Some [], true, go "") /\
  ParseLine (fun s => s) (go "  ") [mkTemplate TokenIdentifier (mkObject 0 VNil []) []] =
    Returned (None, false, go "Object list and template list length do not match").
Proof. repeat split; repeat constructor. Qed.

(** ** C9: the line of the demo program *)

(** C9. [ParseLine] on "mov64 r10 r11" with the template [Identifier,
    Register, Register] returns success=true, an empty error string and
    three objects: an Identifier holding the string "mov64", a Register
    holding 0x10 and a Register holding 0x11. *)
Theorem ParseLine_mov64
        (unicodeLower : gostring -> gostring)
        (v1 v2 v3 : ObjectType) (e1 e2 e3 : gostring) :
  ParseLine unicodeLower (go "mov64 r10 r11") (demo_template v1 v2 v3 e1 e2 e3) =
  Returned (Some [ mkObject TokenIdentifier (VString (go "mov64")) (go "");
                   mkObject TokenRegister (VUint64 16) (go "");
                   mkObject TokenRegister (VUint64 17) (go "") ],
            true, go "").
Proof. reflexivity. Qed.

(** The second line of the demo program fails at position 1. *)
Example ParseLine_bob_alice :
  ParseLine (fun s => s) (go "mov64 bob alice")
            (demo_template zero_object zero_object zero_object
                           (go "Expected an identifier")
                           (go "Expected a destination register")
                           (go "Expected a source register")) =
  Returned (Some [ mkObject TokenIdentifier (VString (go "mov64")) (go "");
                   mkObject TokenIdentifier (VString (go "bob")) (go "");
                   mkObject TokenIdentifier (VString (go "alice")) (go "") ],
            false,
            go "Expected type (6)Register but got type (0)Identifier: Expected a destination register").
Proof. reflexivity. Qed.

(** ** C7: the accessors *)

Lemma setters_consistent (obj : ObjectType) (s desc : gostring) (i : Z) (b : bool) :
  consistent (SetString obj s desc) /\
  consistent (SetInteger obj i desc) /\
  consistent (SetBoolean obj b desc).
Proof.
  unfold consistent. simpl.
  repeat split; intros H; try discriminate H; eauto.
Qed.

(** On an object whose stored value has the dynamic type its
    discriminant announces (as every object written by [SetString],
    [SetInteger] or [SetBoolean] has), each accessor returns: the success
    flag and the stored value when the discriminant is the one the
    accessor asks for, and otherwise success=false, a zero value and a
    "mismatched type" message ([GetString] returns the message in its
    second component and the empty string in its third). The objects
    that [ParseLine] builds are not of this kind, see below. *)
Theorem accessors_on_consistent_objects (obj : ObjectType) :
  consistent obj ->
  (ObjectTypeId obj = OBJECT_TYPE_STRING ->
   exists s, ObjectValue obj = VString s /\
             GetString obj = Returned (true, s, ObjectDescriptor obj)) /\
  (ObjectTypeId obj <> OBJECT_TYPE_STRING ->
   GetString obj = Returned (false, go "Mismatched object type", go "")) /\
  (ObjectTypeId obj = OBJECT_TYPE_INTEGER ->
   exists n, ObjectValue obj = VUint64 n /\
             GetInteger obj = Returned (true, n, go "")) /\
  (ObjectTypeId obj <> OBJECT_TYPE_INTEGER ->
   GetInteger obj = Returned (false, 0%Z, go "Mismatch object type")) /\
  (ObjectTypeId obj = OBJECT_TYPE_BOOLEAN ->
   exists b, ObjectValue obj = VBool b /\
             GetBoolean obj = Returned (true, b, go "")) /\
  (ObjectTypeId obj <> OBJECT_TYPE_BOOLEAN ->
   GetBoolean obj = Returned (false, false, go "Mismatch object type")).
Proof.
  intros (Hs & Hi & Hb).
  unfold GetString, GetInteger, GetBoolean.
  repeat split.
  - intros Hid. destruct (Hs Hid) as [s Hv]. exists s. rewrite Hid, Hv. auto.
  - intros Hid. apply Z.eqb_neq in Hid. rewrite Hid. reflexivity.
  - intros Hid. destruct (Hi Hid) as [n Hv]. exists n. rewrite Hid, Hv. auto.
  - intros Hid. apply Z.eqb_neq in Hid. rewrite Hid. reflexivity.
  - intros Hid. destruct (Hb Hid) as [b Hv]. exists b. rewrite Hid, Hv. auto.
  - intros Hid. apply Z.eqb_neq in Hid. rewrite Hid. reflexivity.
Qed.

Lemma accessors_on_consistent_objects_witness :
  GetInteger (SetInteger zero_object 42 (go "answer")) = Returned (true, 42%Z, go "") /\
  GetString (SetInteger zero_object 42 (go "answer")) =
    Returned (false, go "Mismatched object type", go "").
Proof.
  pose proof (accessors_on_consistent_objects
                (SetInteger zero_object 42 (go "answer"))
                (proj1 (proj2 (setters_consistent zero_object [] (go "answer") 42 true))))
    as (_ & Hstr & Hint & _).
  split.
  - destruct (Hint eq_refl) as (n & Hv & Hget). injection Hv as <-. exact Hget.
  - apply Hstr. discriminate.
Defined.

(** C7, at the failing inputs. [ParseLine] stores the kind of the token
    in [ObjectTypeId], and the kinds 0, 1 and 2 are also the
    discriminants [OBJECT_TYPE_STRING], [OBJECT_TYPE_INTEGER] and
    [OBJECT_TYPE_BOOLEAN]. The object it returns for a Uint64 token has
    the discriminant 2 and holds a [uint64]: [GetBoolean] passes the test
    of the discriminant and its type assertion panics. The object it
    returns for a QuotedString token has the discriminant 1 and holds a
    string: [GetInteger] panics in the same way. Neither call returns the
    flag, value and error that the accessor documents. *)
Theorem accessors_panic_on_parsed_objects :
  ParseLine (fun s => s) (go "123456789") [mkTemplate TokenUint64 zero_object []] =
    Returned (Some [mkObject TokenUint64 (VUint64 4886718345) (go "")], true, go "") /\
  GetBoolean (mkObject TokenUint64 (VUint64 4886718345) (go "")) = Panic /\
  ParseLine (fun s => s) (quote :: go "ab" ++ [quote])
            [mkTemplate TokenQuotedString zero_object []] =
    Returned (Some [mkObject TokenQuotedString (VString (quote :: go "ab" ++ [quote])) (go "")],
              true, go "") /\
  GetInteger (mkObject TokenQuotedString (VString (quote :: go "ab" ++ [quote])) (go "")) =
    Panic.
Proof. repeat split. Qed.

(** ** C5: faults of ParseLine *)

Lemma name_at_named (kind : Z) : named kind -> exists n, name_at kind = Some n.
Proof.
  unfold named. intros H.
  assert (Hk : (kind = 0 \/ kind = 1 \/ kind = 2 \/ kind = 3 \/
                kind = 4 \/ kind = 5 \/ kind = 6 \/ kind = 7)%Z) by lia.
  repeat (destruct Hk as [->|Hk]; [eexists; reflexivity|]).
  subst kind. eexists; reflexivity.
Qed.

Lemma parse_number_named (kind : Z) (digits : gostring) (objList objList' : list ObjectType) :
  named kind ->
  Forall (fun o => named (ObjectTypeId o)) objList ->
  parse_number kind digits objList = Completed objList' ->
  Forall (fun o => named (ObjectTypeId o)) objList'.
Proof.
  intros Hk Hall. unfold parse_number.
  destruct (ParseUint digits 16 64) as [v [e|]]; [discriminate|].
  intros [= <-]. apply Forall_app. split; [exact Hall|]. constructor; auto.
Qed.

(** Every object of the token loop carries one of the eight named kinds. *)
Lemma token_case_named (tok : Token) (objList objList' : list ObjectType) :
  Forall (fun o => named (ObjectTypeId o)) objList ->
  token_case tok objList = Completed objList' ->
  Forall (fun o => named (ObjectTypeId o)) objList'.
Proof.
  intros Hall.
  assert (Hnum : forall kind digits,
             In kind [TokenUint64; TokenUint32; TokenUint16; TokenUint8; TokenRegister] ->
             parse_number kind digits objList = Completed objList' ->
             Forall (fun o => named (ObjectTypeId o)) objList').
  { intros kind digits Hk. apply parse_number_named; [|exact Hall].
    simpl in Hk. unfold named.
    destruct Hk as [<-|[<-|[<-|[<-|[<-|[]]]]]]; cbv; split; congruence. }
  assert (Htext : forall kind text,
             In kind [TokenIdentifier; TokenMacro; TokenQuotedString] ->
             Completed (objList ++ [mkObject kind (VString text) (go "")]) =
             Completed objList' ->
             Forall (fun o => named (ObjectTypeId o)) objList').
  { intros kind text Hk [= <-]. apply Forall_app. split; [exact Hall|].
    constructor; [|constructor]. simpl in *. unfold named.
    destruct Hk as [<-|[<-|[<-|[]]]]; cbv; split; congruence. }
  unfold token_case.
  destruct (Type_ tok =? TokenIdentifier)%Z; [apply Htext; simpl; tauto|].
  destruct (Type_ tok =? TokenMacro)%Z; [apply Htext; simpl; tauto|].
  destruct (Type_ tok =? TokenQuotedString)%Z; [apply Htext; simpl; tauto|].
  destruct (Type_ tok =? TokenUint64)%Z; [apply Hnum; simpl; tauto|].
  destruct (Type_ tok =? TokenUint32)%Z; [apply Hnum; simpl; tauto|].
  destruct (Type_ tok =? TokenUint16)%Z; [apply Hnum; simpl; tauto|].
  destruct (Type_ tok =? TokenUint8)%Z; [apply Hnum; simpl; tauto|].
  destruct (Type_ tok =? TokenUnknown)%Z; [intros [= <-]; exact Hall|].
  destruct (Type_ tok =? TokenRegister)%Z; [|intros [= <-]; exact Hall].
  destruct (ValueReceived tok); [discriminate|].
  apply Hnum; simpl; tauto.
Qed.

Lemma token_loop_named (toks : list Token) :
  forall objList objList',
    Forall (fun o => named (ObjectTypeId o)) objList ->
    token_loop toks objList = Completed objList' ->
    Forall (fun o => named (ObjectTypeId o)) objList'.
Proof.
  induction toks as [|tok toks IH]; intros objList objList' Hall; simpl.
  - intros [= <-]. exact Hall.
  - destruct (token_case tok objList) as [objList1|r] eqn:Hcase; [|discriminate].
    apply IH. eapply token_case_named; eauto.
Qed.

Lemma emitted_text_nonempty (input : gostring) (tok : Token) :
  In tok (Tokenize input) -> ValueReceived tok <> [].
Proof.
  intros Hin. destruct (Tokenize_token_pattern _ _ Hin) as [(c & ->)|(re & Hre & Hd)].
  - simpl. unfold string_of_byte. destruct (code c <? 128); discriminate.
  - pose proof (patterns_nonempty _ _ _ Hre Hd) as Hlen.
    intros Hnil. rewrite Hnil in Hlen. simpl in Hlen. lia.
Qed.

Lemma token_case_no_panic (tok : Token) (objList : list ObjectType) :
  ValueReceived tok <> [] -> token_case tok objList <> Exit Panic.
Proof.
  intros Hne.
  assert (Hnum : forall kind digits, parse_number kind digits objList <> Exit Panic).
  { intros kind digits. unfold parse_number.
    destruct (ParseUint digits 16 64) as [v [e|]]; discriminate. }
  unfold token_case.
  repeat match goal with
         | |- context [if ?b then _ else _] => destruct b
         end; try discriminate; try apply Hnum.
  destruct (ValueReceived tok); [congruence|apply Hnum].
Qed.

Lemma token_loop_no_panic (input : gostring) (toks : list Token) :
  (forall tok, In tok toks -> In tok (Tokenize input)) ->
  forall objList, token_loop toks objList <> Exit Panic.
Proof.
  induction toks as [|tok toks IH]; intros Hsub objList; simpl; [discriminate|].
  destruct (token_case tok objList) as [objList'|r] eqn:Hcase.
  - apply IH. intros t Ht. apply Hsub. right. exact Ht.
  - intros [= ->]. revert Hcase. apply token_case_no_panic.
    eapply emitted_text_nonempty. apply Hsub. left. reflexivity.
Qed.

Lemma check_loop_named (objList objs : list ObjectType) :
  forall tpls,
    length objs = length tpls ->
    Forall (fun o => named (ObjectTypeId o)) objs ->
    Forall (fun t => named (TemplateType t)) tpls ->
    check_loop objList objs tpls <> Panic.
Proof.
  induction objs as [|o objs IH]; intros [|t tpls] Hlen Hobjs Htpls; simpl;
    try discriminate.
  inversion Hobjs as [|? ? Ho Hobjs']; inversion Htpls as [|? ? Ht Htpls']; subst.
  destruct (negb (ObjectTypeId o =? TemplateType t)%Z).
  - unfold mismatch_message.
    destruct (name_at_named _ Ht) as [nt ->], (name_at_named _ Ho) as [no ->].
    discriminate.
  - apply IH; auto.
Qed.

(** X18. With a template whose kinds all have a name in [TokenNames],
    [ParseLine] returns on every input. *)
Lemma ParseLine_returns_with_named_kinds
      (unicodeLower : gostring -> gostring) (txt : gostring)
      (templateList : list TemplateObject) :
  Forall (fun t => named (TemplateType t)) templateList ->
  ParseLine unicodeLower txt templateList <> Panic.
Proof.
  intros Htpls. unfold ParseLine.
  destruct (length (Tokenize (EatComments (ToLower unicodeLower txt))) =? 0);
    [discriminate|].
  destruct (token_loop (Tokenize (EatComments (ToLower unicodeLower txt))) [])
    as [objList|r] eqn:Hloop.
  - destruct (length objList =? length templateList) eqn:Hlen; cbn [negb];
      [|discriminate].
    apply Nat.eqb_eq in Hlen. apply check_loop_named; auto.
    eapply token_loop_named; [|exact Hloop]. constructor.
  - intros ->. revert Hloop. eapply token_loop_no_panic. intros tok Hin. exact Hin.
Qed.

(** C5, at the failing input. A template entry of kind [TokenUnknown]
    (255), met by an Identifier object, reaches [TokenNames[255]] in the
    arguments of the error message: an index out of range, and
    [ParseLine] panics instead of returning its triple. *)
Theorem ParseLine_panics_on_unnamed_template_kind :
  ParseLine (fun s => s) (go "ab") [mkTemplate TokenUnknown zero_object (go "label")] = Panic /\
  token_loop (Tokenize (go "ab")) [] =
    Completed [mkObject TokenIdentifier (VString (go "ab")) (go "")] /\
  name_at TokenUnknown = None.
Proof. repeat split. Qed.

(** ** C3: the Identifier pattern *)

Lemma alpha_class_spec (c : ascii) :
  class_has (cls [("a", "z"); ("A", "Z")]%char) c = is_alpha c.
Proof.
  unfold class_has, cls, is_alpha, in_range. cbn [negated ranges existsb fst snd].
  rewrite xorb_false_l, orb_false_r.
  change (code "a") with 97. change (code "z") with 122.
  change (code "A") with 65. change (code "Z") with 90.
  apply orb_comm.
Qed.

Lemma second_class_spec (c : ascii) :
  class_has (cls [("a", "z"); ("A", "z")]%char) c = true <-> 65 <= code c <= 122.
Proof.
  unfold class_has, cls. cbn [negated ranges existsb].
  rewrite xorb_false_l, !orb_true_iff, !in_range_spec.
  change (code "a") with 97. change (code "z") with 122. change (code "A") with 65.
  intuition lia.
Qed.

Lemma word_class_spec (c : ascii) :
  class_has (cls [("a", "z"); ("A", "Z"); ("0", "9"); ("_", "_")]%char) c = true
  <-> is_word c = true.
Proof.
  unfold class_has, cls, is_word, is_alpha. cbn [negated ranges existsb].
  rewrite xorb_false_l, !orb_true_iff, !andb_true_iff, !in_range_spec.
  rewrite !Nat.leb_le, Nat.eqb_eq.
  change (code "a") with 97. change (code "z") with 122.
  change (code "A") with 65. change (code "Z") with 90.
  change (code "0") with 48. change (code "9") with 57.
  change (code "_") with 95.
  intuition lia.
Qed.

(** X19. What the pattern of the code accepts as an Identifier: an alphabetic
    first character, a second character anywhere from 'A' to 'z' (the
    range [A-z], which also holds the six characters between 'Z' and
    'a'), then alphanumeric characters or underscores. *)
Lemma identifier_token_shape (input : gostring) (tok : Token) :
  In tok (Tokenize input) -> Type_ tok = TokenIdentifier ->
  exists c1 c2 rest,
    ValueReceived tok = c1 :: c2 :: rest /\
    is_alpha c1 = true /\ 65 <= code c2 <= 122 /\
    Forall (fun c => is_word c = true) rest.
Proof.
  intros Hin Hty.
  destruct (Tokenize_token_pattern _ _ Hin) as [(c & ->)|(re & Hre & Hd)];
    [discriminate Hty|].
  rewrite Hty in Hre. unfold patterns in Hre. simpl in Hre.
  repeat (destruct Hre as [Hre|Hre]; [try discriminate Hre|]); [|contradiction].
  injection Hre as <-.
  apply one_shape in Hd as (c1 & w1 & Hw & Hc1 & Hd).
  apply one_shape in Hd as (c2 & w2 & -> & Hc2 & Hd).
  apply star_shape in Hd.
  exists c1, c2, w2. rewrite alpha_class_spec in Hc1. apply second_class_spec in Hc2.
  repeat split; auto; try lia.
  eapply Forall_impl; [|exact Hd]. intros c. apply word_class_spec.
Qed.

(** C3, at the failing input. The text "a_b" is classified as an
    Identifier although its second character, the underscore, is not
    alphabetic: the second class of the pattern is written [a-zA-z]. *)
Theorem Tokenize_identifier_with_underscore_second :
  Tokenize (go "a_b") = [mkToken TokenIdentifier (go "a_b")] /\
  is_alpha "_"%char = false /\
  ParseLine (fun s => s) (go "a_b") [mkTemplate TokenIdentifier zero_object []] =
    Returned (Some [mkObject TokenIdentifier (VString (go "a_b")) (go "")], true, go "").
Proof. repeat split. Qed.

(** * Further properties of the code *)

(** ** Tokenize as a recursion *)

Lemma scan_fuel (fuel1 : nat) :
  forall fuel2 remaining,
    length remaining <= fuel1 -> length remaining <= fuel2 ->
    scan fuel1 remaining = scan fuel2 remaining.
Proof.
  induction fuel1 as [|fuel1 IH]; intros fuel2 remaining H1 H2.
  - destruct remaining; [|simpl in H1; lia]. rewrite !scan_nil. reflexivity.
  - destruct remaining as [|c rem]; [rewrite !scan_nil; reflexivity|].
    destruct fuel2 as [|fuel2]; [simpl in H2; lia|].
    rewrite !scan_cons by discriminate. f_equal.
    pose proof (advance_bounds (c :: rem) ltac:(discriminate)) as Hb.
    apply IH; rewrite length_skipn; simpl length in *; lia.
Qed.

(** The first token and the tokens of the rest of the input. *)
Lemma Tokenize_unfold (input : gostring) :
  input <> [] ->
  Tokenize input = next_token input :: Tokenize (skipn (advance input) input).
Proof.
  intros Hne. rewrite !Tokenize_scan.
  destruct input as [|c rem]; [congruence|].
  cbn [length]. rewrite scan_cons by exact Hne. f_equal.
  pose proof (advance_bounds (c :: rem) Hne) as Hb.
  apply scan_fuel; rewrite length_skipn; simpl length in *; lia.
Qed.

(** X1. On an input of ASCII bytes the texts of the tokens, put end to
    end in order, are the input: nothing is dropped, nothing is added. *)
Theorem Tokenize_concat_ascii (input : gostring) :
  forallb is_ascii input = true ->
  concat (map ValueReceived (Tokenize input)) = input.
Proof.
  intros Hascii. rewrite Tokenize_scan. apply scan_concat_ascii; auto.
Qed.

Lemma Tokenize_concat_ascii_witness :
  concat (map ValueReceived (Tokenize (go "mov64 r10 ; x"))) = go "mov64 r10 ; x".
Proof. apply Tokenize_concat_ascii. reflexivity. Defined.

(** X2. Every token that [Tokenize] emits has one of the nine kinds of
    the token model and a non-empty text; the text of a token that is not
    Unknown is a piece of the input. *)
Theorem Tokenize_tokens_well_formed (input : gostring) (tok : Token) :
  In tok (Tokenize input) ->
  In (Type_ tok) token_kinds /\
  ValueReceived tok <> [] /\
  (Type_ tok <> TokenUnknown ->
   exists before after, input = before ++ ValueReceived tok ++ after).
Proof.
  intros Hin. split; [|split].
  - destruct (Tokenize_token_pattern _ _ Hin) as [(c & ->)|(re & Hre & _)].
    + simpl. tauto.
    + apply pattern_kind in Hre. unfold token_kinds. simpl in *. tauto.
  - eapply emitted_text_nonempty; eauto.
  - intros Hkind. destruct (Tokenize_In _ _ Hin) as (pre & rest & -> & Hne & Htok).
    unfold next_token in Htok.
    destruct (first_match patterns rest) as [tok'|] eqn:Hm.
    + subst tok'. destruct (first_match_sound _ _ _ Hm) as (_ & n & _ & _ & Hv & _ & _).
      exists pre, (skipn n rest). rewrite Hv, firstn_skipn. reflexivity.
    + subst tok. simpl in Hkind. congruence.
Qed.

Lemma Tokenize_tokens_well_formed_witness :
  exists before after,
    go "mov64 r10 r11" = before ++ go "r10" ++ after.
Proof.
  refine (proj2 (proj2 (Tokenize_tokens_well_formed
            (go "mov64 r10 r11") (mkToken TokenRegister (go "r10")) _)) _).
  - vm_compute. tauto.
  - discriminate.
Defined.

(** X3. The text of a hexadecimal token has hexadecimal digits only, and
    its length is within the bounds of its kind: 9 to 16 for Uint64, 5 to
    8 for Uint32, 3 or 4 for Uint16, 1 or 2 for Uint8. *)
Theorem hex_token_width (input : gostring) (tok : Token) :
  In tok (Tokenize input) ->
  (Type_ tok = TokenUint64 -> 9 <= length (ValueReceived tok) <= 16) /\
  (Type_ tok = TokenUint32 -> 5 <= length (ValueReceived tok) <= 8) /\
  (Type_ tok = TokenUint16 -> 3 <= length (ValueReceived tok) <= 4) /\
  (Type_ tok = TokenUint8 -> 1 <= length (ValueReceived tok) <= 2) /\
  (In (Type_ tok) [TokenUint64; TokenUint32; TokenUint16; TokenUint8] ->
   Forall (fun c => is_hex c = true) (ValueReceived tok)).
Proof.
  intros Hin.
  assert (Hpat : forall kind, Type_ tok = kind -> kind <> TokenUnknown ->
                   exists re, In (re, kind) patterns /\ denotes re (ValueReceived tok)).
  { intros kind Hk Hne.
    destruct (Tokenize_token_pattern _ _ Hin) as [(c & ->)|(re & Hre & Hd)].
    - simpl in Hk. congruence.
    - exists re. rewrite <- Hk. auto. }
  split; [|split; [|split; [|split]]].
  1-4: intros Hk; destruct (Hpat _ Hk ltac:(discriminate)) as (re & Hre & Hd);
       unfold patterns in Hre; simpl in Hre;
       repeat (destruct Hre as [Hre|Hre]; [try discriminate Hre|]);
       try contradiction;
       injection Hre as <-; apply hex_pattern_shape in Hd; lia.
  intros Hk. destruct (uint_token_parse _ _ Hin Hk) as (_ & Hhex & _). exact Hhex.
Qed.

Lemma hex_token_width_witness :
  3 <= length (go "1f2e") <= 4.
Proof.
  refine (proj1 (proj2 (proj2 (hex_token_width
            (go "1f2e r1") (mkToken TokenUint16 (go "1f2e")) _))) _).
  - vm_compute. tauto.
  - reflexivity.
Defined.

(** ** The matcher on the shapes of the table *)

Lemma match_rep_done (cc : CharClass) (k : gostring -> option nat) (s : gostring) :
  match_rep cc k 0 (Some 0) s = k s.
Proof.
  destruct s as [|c s]; simpl; [reflexivity|].
  rewrite andb_false_r. reflexivity.
Qed.

Lemma match_one (cc : CharClass) (re : Regexp) (c : ascii) (s : gostring) :
  match_pieces (one cc :: re) (c :: s) =
  if class_has cc c then option_map S (match_pieces re s) else None.
Proof.
  unfold one. cbn [match_pieces match_rep can_take]. rewrite andb_true_r.
  destruct (class_has cc c); [|reflexivity].
  cbn [pred option_map]. rewrite match_rep_done.
  destruct (match_pieces re s); reflexivity.
Qed.

Lemma match_between_miss (cc : CharClass) (lo hi : nat) (c : ascii) (s : gostring) :
  class_has cc c = false -> match_pieces [between (S lo) hi cc] (c :: s) = None.
Proof. intros Hc. unfold between. cbn [match_pieces match_rep]. rewrite Hc. reflexivity. Qed.

(** A final star takes the longest run of its class. *)
Lemma match_star_final (cc : CharClass) (s : gostring) :
  exists n, match_pieces [star cc] s = Some n /\ n <= length s /\
            Forall (fun c => class_has cc c = true) (firstn n s) /\
            forall c after, skipn n s = c :: after -> class_has cc c = false.
Proof.
  unfold star. cbn [match_pieces].
  induction s as [|c s (n & Hm & Hle & Hall & Hnext)].
  - exists 0. simpl. repeat split; auto. intros; discriminate.
  - cbn [match_rep can_take pred option_map]. rewrite andb_true_r.
    destruct (class_has cc c) eqn:Hc.
    + rewrite Hm. exists (S n). simpl. repeat split; auto. lia.
    + exists 0. simpl. repeat split; auto; [lia|]. intros c' after [= <- _]. exact Hc.
Qed.

Lemma not_lit_spec (l c : ascii) : class_has (not_lit l) c = true <-> c <> l.
Proof.
  unfold class_has, not_lit. cbn [negated ranges existsb].
  rewrite orb_false_r, xorb_true_l, negb_true_iff.
  pose proof (lit_spec l c) as Hlit. unfold class_has, lit in Hlit.
  cbn [negated ranges existsb] in Hlit. rewrite xorb_false_l, orb_false_r in Hlit.
  destruct (in_range c (l, l)).
  - split; [discriminate|]. intros Hne. exfalso. apply Hne, Hlit. reflexivity.
  - split; [|reflexivity]. intros _ Heq. apply Hlit in Heq. discriminate.
Qed.

Lemma lit_miss (l c : ascii) : c <> l -> class_has (lit l) c = false.
Proof.
  intros Hne. destruct (class_has (lit l) c) eqn:Hc; [|reflexivity].
  apply lit_spec in Hc. contradiction.
Qed.

Lemma macro_class_spec (c : ascii) :
  class_has (cls [("a", "z"); ("A", "z"); ("0", "9"); ("_", "_")]%char) c = true
  <-> is_macro_word c = true.
Proof.
  unfold class_has, cls, is_macro_word. cbn [negated ranges existsb].
  rewrite xorb_false_l, !orb_true_iff, !andb_true_iff, !in_range_spec, !Nat.leb_le.
  change (code "a") with 97. change (code "z") with 122. change (code "A") with 65.
  change (code "0") with 48. change (code "9") with 57. change (code "_") with 95.
  intuition lia.
Qed.

Lemma emitted_by_pattern (input : gostring) (tok : Token) :
  In tok (Tokenize input) -> Type_ tok <> TokenUnknown ->
  exists before rest re n,
    input = before ++ rest /\ In (re, Type_ tok) patterns /\
    match_pieces re rest = Some n /\ ValueReceived tok = firstn n rest /\
    denotes re (ValueReceived tok).
Proof.
  intros Hin Hkind. destruct (Tokenize_In _ _ Hin) as (pre & rest & -> & Hne & Htok).
  unfold next_token in Htok.
  destruct (first_match patterns rest) as [tok'|] eqn:Hm.
  - subst tok'. destruct (first_match_sound _ _ _ Hm) as (re & n & Hre & Hn & Hv & _ & Hd).
    exists pre, rest, re, n. auto.
  - subst tok. simpl in Hkind. congruence.
Qed.

(** ** The shapes of the tokens *)

(** X4. A QuotedString token holds an opening quote, a body without any
    quote and the closing quote: the token ends at the first quote after
    the opening one, and the quotes are part of its text. *)
Theorem quoted_token_shape (input : gostring) (tok : Token) :
  In tok (Tokenize input) -> Type_ tok = TokenQuotedString ->
  exists body, ValueReceived tok = quote :: body ++ [quote] /\ ~ In quote body.
Proof.
  intros Hin Hty.
  destruct (emitted_by_pattern _ _ Hin) as (_ & _ & re & _ & _ & Hre & _ & _ & Hd);
    [rewrite Hty; discriminate|].
  rewrite Hty in Hre. unfold patterns in Hre. simpl in Hre.
  repeat (destruct Hre as [Hre|Hre]; [try discriminate Hre|]); try contradiction.
  injection Hre as <-.
  apply one_shape in Hd as (c & w & -> & Hc & Hd). apply lit_spec in Hc as ->.
  simpl in Hd. destruct Hd as (a & b & -> & _ & _ & Ha & Hb).
  change (denotes [one (lit quote)] b) in Hb.
  apply one_shape in Hb as (c & w & -> & Hc & Hw). apply lit_spec in Hc as ->.
  simpl in Hw. subst w. exists a. split; [reflexivity|].
  intros Hq. rewrite Forall_forall in Ha. apply Ha in Hq.
  apply not_lit_spec in Hq. congruence.
Qed.

Lemma quoted_token_shape_witness :
  exists body, quote :: go "a b" ++ [quote] = quote :: body ++ [quote] /\ ~ In quote body.
Proof.
  apply (quoted_token_shape (quote :: go "a b" ++ [quote] ++ go " r1")
                            (mkToken TokenQuotedString (quote :: go "a b" ++ [quote]))).
  - vm_compute. tauto.
  - reflexivity.
Defined.

(** X5. A Macro token holds the marker '@', an alphabetic character and
    then characters of the class [a-zA-z0-9_]: letters, digits, the
    underscore and the other five characters between 'Z' and 'a'. *)
Theorem macro_token_shape (input : gostring) (tok : Token) :
  In tok (Tokenize input) -> Type_ tok = TokenMacro ->
  exists c rest,
    ValueReceived tok = "@"%char :: c :: rest /\ is_alpha c = true /\
    Forall (fun x => is_macro_word x = true) rest.
Proof.
  intros Hin Hty.
  destruct (emitted_by_pattern _ _ Hin) as (_ & _ & re & _ & _ & Hre & _ & _ & Hd);
    [rewrite Hty; discriminate|].
  rewrite Hty in Hre. unfold patterns in Hre. simpl in Hre.
  repeat (destruct Hre as [Hre|Hre]; [try discriminate Hre|]); try contradiction.
  injection Hre as <-.
  apply one_shape in Hd as (m & w & -> & Hm & Hd). apply lit_spec in Hm as ->.
  apply one_shape in Hd as (c & w' & -> & Hc & Hd). rewrite alpha_class_spec in Hc.
  apply star_shape in Hd. exists c, w'. repeat split; auto.
  eapply Forall_impl; [|exact Hd]. intros x Hx. exact (proj1 (macro_class_spec x) Hx).
Qed.

Lemma macro_token_shape_witness :
  exists c rest,
    go "@ab_1" = "@"%char :: c :: rest /\ is_alpha c = true /\
    Forall (fun x => is_macro_word x = true) rest.
Proof.
  apply (macro_token_shape (go "@ab_1 r1") (mkToken TokenMacro (go "@ab_1"))).
  - vm_compute. tauto.
  - reflexivity.
Defined.

(** X6. A Register token holds the marker 'r' and then all the
    hexadecimal digits that follow it in the input: the character after
    the token, when there is one, is not a hexadecimal digit. *)
Theorem register_token_maximal (input : gostring) (tok : Token) :
  In tok (Tokenize input) -> Type_ tok = TokenRegister ->
  exists before digits after,
    input = before ++ ("r"%char :: digits) ++ after /\
    ValueReceived tok = "r"%char :: digits /\
    Forall (fun c => is_hex c = true) digits /\
    forall c after', after = c :: after' -> is_hex c = false.
Proof.
  intros Hin Hty.
  destruct (emitted_by_pattern _ _ Hin) as (pre & rest & re & n & -> & Hre & Hn & Hv & _);
    [rewrite Hty; discriminate|].
  rewrite Hty in Hre. unfold patterns in Hre. simpl in Hre.
  repeat (destruct Hre as [Hre|Hre]; [try discriminate Hre|]); try contradiction.
  injection Hre as <-.
  destruct rest as [|c s]; [discriminate Hn|].
  rewrite match_one in Hn. destruct (class_has (lit "r") c) eqn:Hc; [|discriminate].
  apply lit_spec in Hc as ->.
  destruct (match_star_final hexdigit s) as (m & Hm & Hle & Hall & Hnext).
  rewrite Hm in Hn. injection Hn as <-.
  exists pre, (firstn m s), (skipn m s).
  simpl in Hv. rewrite Hv. simpl. rewrite firstn_skipn. repeat split; auto.
Qed.

Lemma register_token_maximal_witness :
  exists before digits after,
    go "mov64 r1fz" = before ++ ("r"%char :: digits) ++ after /\
    go "r1f" = "r"%char :: digits /\
    Forall (fun c => is_hex c = true) digits /\
    forall c after', after = c :: after' -> is_hex c = false.
Proof.
  apply (register_token_maximal (go "mov64 r1fz") (mkToken TokenRegister (go "r1f"))).
  - vm_compute. tauto.
  - reflexivity.
Defined.

(** ** The priority of the patterns *)

Lemma alpha_not_lit (l c : ascii) :
  is_alpha c = true -> is_alpha l = false -> class_has (lit l) c = false.
Proof. intros Hc Hl. apply lit_miss. intros ->. congruence. Qed.

(** X7. Two letters start an Identifier, whatever they are: the
    Identifier pattern comes before the hexadecimal ones, so a text such
    as "ff" or "beef" is an Identifier, not a number. The token takes the
    two characters (the second anywhere from 'A' to 'z') and the longest
    run of letters, digits and underscores after them, and the tokens of
    the rest follow. *)
Theorem identifier_takes_priority (c1 c2 : ascii) (rest : gostring) :
  is_alpha c1 = true -> 65 <= code c2 <= 122 ->
  exists n,
    n <= length rest /\
    Forall (fun c => is_word c = true) (firstn n rest) /\
    (forall c after, skipn n rest = c :: after -> is_word c = false) /\
    Tokenize (c1 :: c2 :: rest) =
    mkToken TokenIdentifier (c1 :: c2 :: firstn n rest) :: Tokenize (skipn n rest).
Proof.
  intros H1 H2.
  destruct (match_star_final
              (cls [("a", "z"); ("A", "Z"); ("0", "9"); ("_", "_")]%char) rest)
    as (n & Hm & Hle & Hall & Hnext).
  assert (Hfirst : first_match patterns (c1 :: c2 :: rest) =
                   Some (mkToken TokenIdentifier (c1 :: c2 :: firstn n rest))).
  { unfold patterns. cbn [first_match]. unfold FindStringSubmatch.
    rewrite match_one, (alpha_not_lit quote c1 H1 eq_refl).
    rewrite match_one, (alpha_not_lit "@"%char c1 H1 eq_refl).
    rewrite match_one, alpha_class_spec, H1.
    rewrite match_one, (proj2 (second_class_spec c2) H2).
    rewrite Hm. reflexivity. }
  exists n. repeat split; auto.
  - eapply Forall_impl; [|exact Hall]. intros c Hc. exact (proj1 (word_class_spec c) Hc).
  - intros c after Hs. specialize (Hnext c after Hs).
    destruct (is_word c) eqn:Hw; [|reflexivity].
    apply word_class_spec in Hw. congruence.
  - rewrite Tokenize_unfold by discriminate.
    unfold next_token, advance. rewrite Hfirst.
    cbn [ValueReceived length]. rewrite length_firstn, Nat.min_l by exact Hle.
    reflexivity.
Qed.

Lemma identifier_takes_priority_witness :
  exists n,
    n <= length (go "ef 12") /\
    Forall (fun c => is_word c = true) (firstn n (go "ef 12")) /\
    (forall c after, skipn n (go "ef 12") = c :: after -> is_word c = false) /\
    Tokenize (go "beef 12") =
    mkToken TokenIdentifier ("b"%char :: "e"%char :: firstn n (go "ef 12"))
            :: Tokenize (skipn n (go "ef 12")).
Proof.
  apply (identifier_takes_priority "b" "e" (go "ef 12")).
  - reflexivity.
  - vm_compute. split; lia.
Defined.

(** X8. A character at which no pattern can start (white space,
    punctuation, a byte from 0x80 on) becomes an Unknown token of that one
    character, and the scan goes on with the rest of the input as if it
    stood alone. *)
Theorem unknown_character_is_skipped (c : ascii) (rest : gostring) :
  starts_nothing c = true ->
  Tokenize (c :: rest) = mkToken TokenUnknown (string_of_byte c) :: Tokenize rest.
Proof.
  unfold starts_nothing. rewrite !andb_true_iff, !negb_true_iff.
  intros [[[Hq Hm] Ha] Hh].
  apply Ascii.eqb_neq in Hq, Hm.
  assert (Hr : class_has (lit "r") c = false).
  { apply lit_miss. intros ->. discriminate Ha. }
  assert (Hfirst : first_match patterns (c :: rest) = None).
  { unfold patterns. cbn [first_match]. unfold FindStringSubmatch.
    rewrite match_one, (lit_miss _ _ Hq).
    rewrite match_one, (lit_miss _ _ Hm).
    rewrite match_one, alpha_class_spec, Ha.
    rewrite !match_between_miss by exact Hh.
    rewrite match_one, Hr. reflexivity. }
  rewrite Tokenize_unfold by discriminate.
  unfold next_token, advance. rewrite Hfirst. reflexivity.
Qed.

Lemma unknown_character_is_skipped_witness :
  Tokenize (go " r10") = mkToken TokenUnknown (string_of_byte " ") :: Tokenize (go "r10").
Proof. apply unknown_character_is_skipped. reflexivity. Defined.

(** ** EatComments *)

Lemma Index_spec (s : gostring) (sep : ascii) :
  (Index s sep = -1 /\ ~ In sep s)%Z \/
  exists a b, s = a ++ sep :: b /\ ~ In sep a /\ Index s sep = Z.of_nat (length a).
Proof.
  induction s as [|c s IH]; [left; simpl; auto|].
  cbn [Index]. destruct (Ascii.eqb c sep) eqn:Hc.
  - apply Ascii.eqb_eq in Hc as ->. right. exists [], s. simpl. auto.
  - apply Ascii.eqb_neq in Hc.
    destruct IH as [[Hidx Hnot]|(a & b & -> & Hnot & Hidx)].
    + left. rewrite Hidx. simpl. split; [reflexivity|]. intros [Hin|Hin]; auto.
    + right. exists (c :: a), b. rewrite Hidx.
      destruct (Z.ltb_spec (Z.of_nat (length a)) 0) as [Hneg|_]; [lia|].
      split; [reflexivity|]. split.
      * intros [Hin|Hin]; auto.
      * cbn [length]. lia.
Qed.

(** X9. [EatComments] returns the text before the first ';': the result
    holds no ';', and the input is the result, followed by nothing when
    the input holds no ';', or by a text that starts with ';'. *)
Theorem EatComments_spec (txt : gostring) :
  ~ In ";"%char (EatComments txt) /\
  ((~ In ";"%char txt /\ EatComments txt = txt) \/
   exists rest, txt = EatComments txt ++ ";"%char :: rest).
Proof.
  unfold EatComments.
  destruct (Index_spec txt ";"%char) as [[Hidx Hnot]|(a & b & Htxt & Hnot & Hidx)].
  - rewrite Hidx. simpl. auto.
  - rewrite Hidx.
    replace (Z.of_nat (length a) >? -1)%Z with true
      by (symmetry; rewrite Z.gtb_ltb; apply Z.ltb_lt; lia).
    rewrite Nat2Z.id, Htxt, firstn_app, Nat.sub_diag, firstn_all.
    simpl. rewrite app_nil_r. split; [exact Hnot|]. right. exists b. reflexivity.
Qed.

Lemma Index_absent (s : gostring) (sep : ascii) :
  ~ In sep s -> Index s sep = (-1)%Z.
Proof.
  intros Hnot. destruct (Index_spec s sep) as [[Hidx _]|(a & b & -> & _ & _)];
    [exact Hidx|].
  exfalso. apply Hnot, in_or_app. right. left. reflexivity.
Qed.

Lemma Index_first (a b : gostring) (sep : ascii) :
  ~ In sep a -> Index (a ++ sep :: b) sep = Z.of_nat (length a).
Proof.
  induction a as [|c a IH]; intros Hnot.
  - simpl. rewrite Ascii.eqb_refl. reflexivity.
  - cbn [app Index]. destruct (Ascii.eqb c sep) eqn:Hc.
    + apply Ascii.eqb_eq in Hc as ->. exfalso. apply Hnot. left. reflexivity.
    + rewrite IH by (intros Hin; apply Hnot; right; exact Hin).
      destruct (Z.ltb_spec (Z.of_nat (length a)) 0) as [Hneg|_]; [lia|].
      cbn [length]. lia.
Qed.

Lemma EatComments_cut (a b : gostring) :
  ~ In ";"%char a -> EatComments (a ++ ";"%char :: b) = a /\ EatComments a = a.
Proof.
  intros Hnot. unfold EatComments. rewrite Index_first, Index_absent by exact Hnot.
  replace (Z.of_nat (length a) >? -1)%Z with true
    by (symmetry; rewrite Z.gtb_ltb; apply Z.ltb_lt; lia).
  rewrite Nat2Z.id, firstn_app, Nat.sub_diag, firstn_all. simpl.
  rewrite app_nil_r. auto.
Qed.

(** X10. Stripping the comment twice is stripping it once. *)
Theorem EatComments_idempotent (txt : gostring) :
  EatComments (EatComments txt) = EatComments txt.
Proof.
  destruct (Index_spec txt ";"%char) as [[_ Hnot]|(a & b & -> & Hnot & _)].
  - destruct (EatComments_cut txt [] Hnot) as [_ Heq]. rewrite !Heq. reflexivity.
  - destruct (EatComments_cut a b Hnot) as [-> ->]. reflexivity.
Qed.

(** ** The object model *)

(** X11. What a setter stores, the accessor of the same representation
    gives back, and the two other accessors report a mismatch;
    [GetString] returns the descriptor, [GetInteger] and [GetBoolean]
    drop it. The object the setter is called on does not matter. *)
Theorem set_then_get (obj : ObjectType) (s desc : gostring) (i : Z) (b : bool) :
  GetString (SetString obj s desc) = Returned (true, s, desc) /\
  GetInteger (SetInteger obj i desc) = Returned (true, i, go "") /\
  GetBoolean (SetBoolean obj b desc) = Returned (true, b, go "") /\
  GetInteger (SetString obj s desc) = Returned (false, 0%Z, go "Mismatch object type") /\
  GetBoolean (SetString obj s desc) = Returned (false, false, go "Mismatch object type") /\
  GetString (SetInteger obj i desc) = Returned (false, go "Mismatched object type", go "") /\
  GetBoolean (SetInteger obj i desc) = Returned (false, false, go "Mismatch object type") /\
  GetString (SetBoolean obj b desc) = Returned (false, go "Mismatched object type", go "") /\
  GetInteger (SetBoolean obj b desc) = Returned (false, 0%Z, go "Mismatch object type").
Proof. repeat split. Qed.

(** ** ParseLine on ASCII lines *)

Lemma lower_ascii_is_ascii (c : ascii) : is_ascii c = true -> is_ascii (lower_ascii c) = true.
Proof.
  unfold lower_ascii. destruct ((65 <=? code c) && (code c <=? 90)) eqn:Hup; [|auto].
  intros _. apply andb_prop in Hup as [H1 H2]. apply Nat.leb_le in H1, H2.
  unfold is_ascii, code in *. rewrite nat_ascii_embedding by lia.
  apply Nat.ltb_lt. lia.
Qed.

Lemma lower_ascii_not_upper (c : ascii) :
  (65 <=? code (lower_ascii c)) && (code (lower_ascii c) <=? 90) = false.
Proof.
  unfold lower_ascii. destruct ((65 <=? code c) && (code c <=? 90)) eqn:Hup; [|exact Hup].
  apply andb_prop in Hup as [H1 H2]. apply Nat.leb_le in H1, H2.
  unfold code in *. rewrite nat_ascii_embedding by lia.
  apply andb_false_iff. right. apply Nat.leb_gt. lia.
Qed.

Lemma lower_ascii_idempotent (c : ascii) : lower_ascii (lower_ascii c) = lower_ascii c.
Proof.
  unfold lower_ascii at 1. rewrite lower_ascii_not_upper. reflexivity.
Qed.

Lemma ToLower_ascii (unicodeLower : gostring -> gostring) (txt : gostring) :
  forallb is_ascii txt = true ->
  ToLower unicodeLower txt = map lower_ascii txt /\
  forallb is_ascii (map lower_ascii txt) = true.
Proof.
  intros Hascii. unfold ToLower. rewrite Hascii. split; [reflexivity|].
  rewrite forallb_forall in *. intros c Hc.
  apply in_map_iff in Hc as (c0 & <- & Hc0). apply lower_ascii_is_ascii. auto.
Qed.

(** X12. On a line of ASCII bytes [ParseLine] does not see the case of
    the letters: the line and its lower-case form give the same result. *)
Theorem ParseLine_case_insensitive
        (unicodeLower : gostring -> gostring) (txt : gostring)
        (templateList : list TemplateObject) :
  forallb is_ascii txt = true ->
  ParseLine unicodeLower (map lower_ascii txt) templateList =
  ParseLine unicodeLower txt templateList.
Proof.
  intros Hascii. destruct (ToLower_ascii unicodeLower txt Hascii) as [Hlow Hascii'].
  destruct (ToLower_ascii unicodeLower _ Hascii') as [Hlow' _].
  unfold ParseLine. rewrite Hlow, Hlow', map_map.
  rewrite (map_ext _ lower_ascii lower_ascii_idempotent). reflexivity.
Qed.

Lemma ParseLine_case_insensitive_witness :
  ParseLine (fun s => s) (map lower_ascii (go "MOV64 R10 r11")) [] =
  ParseLine (fun s => s) (go "MOV64 R10 r11") [].
Proof. apply ParseLine_case_insensitive. reflexivity. Defined.

(** X13. On a line of ASCII bytes, what follows the first ';' does not
    change the result: the line parses as its part before the ';'. *)
Theorem ParseLine_ignores_comment
        (unicodeLower : gostring -> gostring) (code_part comment : gostring)
        (templateList : list TemplateObject) :
  forallb is_ascii code_part = true -> forallb is_ascii comment = true ->
  ~ In ";"%char code_part ->
  ParseLine unicodeLower (code_part ++ ";"%char :: comment) templateList =
  ParseLine unicodeLower code_part templateList.
Proof.
  intros Ha Hb Hnot.
  assert (Hab : forallb is_ascii (code_part ++ ";"%char :: comment) = true).
  { rewrite forallb_app, Ha. simpl. exact Hb. }
  destruct (ToLower_ascii unicodeLower _ Ha) as [Hlow _].
  destruct (ToLower_ascii unicodeLower _ Hab) as [Hlow' _].
  assert (Hnot' : ~ In ";"%char (map lower_ascii code_part)).
  { intros Hin. apply in_map_iff in Hin as (c & Hc & Hin).
    apply lower_ascii_semicolon in Hc as ->. contradiction. }
  unfold ParseLine. rewrite Hlow, Hlow', map_app. cbn [map].
  change (lower_ascii ";") with ";"%char.
  destruct (EatComments_cut (map lower_ascii code_part) (map lower_ascii comment) Hnot')
    as [-> ->].
  reflexivity.
Qed.

Lemma ParseLine_ignores_comment_witness :
  ParseLine (fun s => s) (go "mov64 r10 r11 " ++ ";"%char :: go " copy; twice") [] =
  ParseLine (fun s => s) (go "mov64 r10 r11 ") [].
Proof.
  apply ParseLine_ignores_comment; try reflexivity.
  vm_compute. intuition discriminate.
Defined.

(** ** The results of ParseLine *)

Lemma check_loop_flag (objList objs : list ObjectType) :
  forall tpls out ok msg,
    check_loop objList objs tpls = Returned (out, ok, msg) ->
    (ok = true <-> msg = []) /\ out = Some objList.
Proof.
  induction objs as [|o objs IH]; intros [|t tpls] out ok msg; simpl;
    try discriminate.
  1-2: intros [= <- <- <-]; split; [tauto|reflexivity].
  destruct (negb (ObjectTypeId o =? TemplateType t)%Z); [|apply IH].
  unfold mismatch_message.
  destruct (name_at (TemplateType t)); [|discriminate].
  destruct (name_at (ObjectTypeId o)); [|discriminate].
  intros [= <- <- <-]. split; [|reflexivity].
  split; intros H; [discriminate H|]. simpl in H. discriminate H.
Qed.

(** X14. Whenever [ParseLine] returns, the success flag is true exactly
    when the error message is empty, and the object list is nil only on a
    failure. *)
Theorem ParseLine_flag_agrees_with_message
        (unicodeLower : gostring -> gostring) (txt : gostring)
        (templateList : list TemplateObject)
        (out : option (list ObjectType)) (ok : bool) (msg : gostring) :
  ParseLine unicodeLower txt templateList = Returned (out, ok, msg) ->
  (ok = true <-> msg = []) /\ (out = None -> ok = false).
Proof.
  unfold ParseLine.
  destruct (length (Tokenize (EatComments (ToLower unicodeLower txt))) =? 0).
  { intros [= <- <- <-]. split; [split; discriminate|reflexivity]. }
  destruct (token_loop (Tokenize (EatComments (ToLower unicodeLower txt))) [])
    as [objList|r] eqn:Hloop.
  - destruct (negb (length objList =? length templateList)).
    + intros [= <- <- <-]. split; [split; discriminate|reflexivity].
    + intros H. apply check_loop_flag in H as [Hflag ->]. split; [exact Hflag|discriminate].
  - intros ->. destruct (token_loop_exit_fails _ _ _ Hloop) as [H|(kind & objs & H)];
      [discriminate H|].
    unfold invalid_number in H. injection H as -> -> ->.
    split; [split; discriminate|discriminate].
Qed.

Lemma ParseLine_flag_agrees_with_message_witness :
  (false = true <-> go "Invalid number" = []) /\
  (Some [mkObject TokenRegister (VInt 0) invalid_hex] = None -> false = false).
Proof.
  apply (ParseLine_flag_agrees_with_message (fun s => s) (go "r") []).
  reflexivity.
Defined.

Lemma check_loop_first_mismatch (objList : list ObjectType)
      (pre_o : list ObjectType) (pre_t : list TemplateObject) :
  Forall2 kinds_agree pre_o pre_t ->
  forall o post_o t post_t,
    ObjectTypeId o <> TemplateType t ->
    check_loop objList (pre_o ++ o :: post_o) (pre_t ++ t :: post_t) =
    match mismatch_message (TemplateType t) (ObjectTypeId o) (TemplateError t) with
    | Some msg => Returned (Some objList, false, msg)
    | None => Panic
    end.
Proof.
  induction 1 as [|o' t' pre_o pre_t Hk _ IH]; intros o post_o t post_t Hne; simpl.
  - apply Z.eqb_neq in Hne. rewrite Hne. reflexivity.
  - unfold kinds_agree in Hk. apply Z.eqb_eq in Hk. rewrite Hk. simpl. apply IH. exact Hne.
Qed.

(** X15. When every token is converted and the object list has the
    length of the template, [ParseLine] reports the first position where
    the kinds differ: with a template kind that has a name, it returns
    the whole object list, success=false and a message made of the
    number and name of the expected kind, the number and name of the kind
    found, and the label of that template entry. *)
Theorem ParseLine_reports_first_mismatch
        (unicodeLower : gostring -> gostring) (txt : gostring)
        (pre_o post_o : list ObjectType) (o : ObjectType)
        (pre_t post_t : list TemplateObject) (t : TemplateObject) :
  token_loop (Tokenize (EatComments (ToLower unicodeLower txt))) [] =
    Completed (pre_o ++ o :: post_o) ->
  Forall2 kinds_agree pre_o pre_t ->
  length post_o = length post_t ->
  ObjectTypeId o <> TemplateType t ->
  named (TemplateType t) ->
  exists expected found,
    name_at (TemplateType t) = Some expected /\
    name_at (ObjectTypeId o) = Some found /\
    ParseLine unicodeLower txt (pre_t ++ t :: post_t) =
    Returned (Some (pre_o ++ o :: post_o), false,
              go "Expected type (" ++ fmt_d (TemplateType t) ++ go ")" ++ expected ++
              go " but got type (" ++ fmt_d (ObjectTypeId o) ++ go ")" ++ found ++
              go ": " ++ TemplateError t).
Proof.
  intros Hloop Hpre Hpost Hne Hnamed.
  assert (Hobj : named (ObjectTypeId o)).
  { pose proof (token_loop_named _ [] _ ltac:(constructor) Hloop) as Hall.
    rewrite Forall_forall in Hall. apply Hall, in_or_app. right. left. reflexivity. }
  destruct (name_at_named _ Hnamed) as [expected He].
  destruct (name_at_named _ Hobj) as [found Hf].
  exists expected, found. split; [exact He|]. split; [exact Hf|].
  unfold ParseLine. rewrite Hloop.
  destruct (Tokenize (EatComments (ToLower unicodeLower txt))) as [|tok toks] eqn:Htoks.
  { simpl in Hloop. destruct pre_o; discriminate Hloop. }
  cbn [length Nat.eqb].
  replace (length (pre_o ++ o :: post_o) =? length (pre_t ++ t :: post_t)) with true.
  - cbn [negb]. rewrite check_loop_first_mismatch by assumption.
    unfold mismatch_message. rewrite He, Hf. reflexivity.
  - symmetry. apply Nat.eqb_eq. rewrite !length_app. cbn [length].
    rewrite (Forall2_length Hpre), Hpost. reflexivity.
Qed.

Lemma ParseLine_reports_first_mismatch_witness :
  exists expected found,
    name_at TokenRegister = Some expected /\
    name_at TokenIdentifier = Some found /\
    ParseLine (fun s => s) (go "mov64 bob")
              ([mkTemplate TokenIdentifier zero_object (go "op")] ++
               mkTemplate TokenRegister zero_object (go "dst") :: []) =
    Returned (Some ([mkObject TokenIdentifier (VString (go "mov64")) (go "")] ++
                    mkObject TokenIdentifier (VString (go "bob")) (go "") :: []),
              false,
              go "Expected type (" ++ fmt_d TokenRegister ++ go ")" ++ expected ++
              go " but got type (" ++ fmt_d TokenIdentifier ++ go ")" ++ found ++
              go ": " ++ go "dst").
Proof.
  apply (ParseLine_reports_first_mismatch (fun s => s) (go "mov64 bob")
           [mkObject TokenIdentifier (VString (go "mov64")) (go "")] []
           (mkObject TokenIdentifier (VString (go "bob")) (go ""))
           [mkTemplate TokenIdentifier zero_object (go "op")] []
           (mkTemplate TokenRegister zero_object (go "dst"))).
  - reflexivity.
  - repeat constructor.
  - reflexivity.
  - discriminate.
  - unfold named, TemplateType, TokenRegister. lia.
Defined.

Lemma parse_number_kinds (kind : Z) (digits : gostring) (objList objList' : list ObjectType) :
  parse_number kind digits objList = Completed objList' ->
  map ObjectTypeId objList' = map ObjectTypeId objList ++ [kind].
Proof.
  unfold parse_number. destruct (ParseUint digits 16 64) as [v [e|]]; [discriminate|].
  intros [= <-]. rewrite map_app. reflexivity.
Qed.

Lemma token_case_kinds (tok : Token) (objList objList' : list ObjectType) :
  token_case tok objList = Completed objList' ->
  map ObjectTypeId objList' =
  map ObjectTypeId objList ++ (if builds_object tok then [Type_ tok] else []).
Proof.
  unfold token_case, builds_object.
  destruct (Z.eqb_spec (Type_ tok) TokenIdentifier) as [->|H0];
    [intros [= <-]; rewrite map_app; reflexivity|].
  destruct (Z.eqb_spec (Type_ tok) TokenMacro) as [->|H7];
    [intros [= <-]; rewrite map_app; reflexivity|].
  destruct (Z.eqb_spec (Type_ tok) TokenQuotedString) as [->|H1];
    [intros [= <-]; rewrite map_app; reflexivity|].
  destruct (Z.eqb_spec (Type_ tok) TokenUint64) as [->|H2]; [apply parse_number_kinds|].
  destruct (Z.eqb_spec (Type_ tok) TokenUint32) as [->|H3]; [apply parse_number_kinds|].
  destruct (Z.eqb_spec (Type_ tok) TokenUint16) as [->|H4]; [apply parse_number_kinds|].
  destruct (Z.eqb_spec (Type_ tok) TokenUint8) as [->|H5]; [apply parse_number_kinds|].
  destruct (Z.eqb_spec (Type_ tok) TokenUnknown) as [->|H255];
    [intros [= <-]; simpl; rewrite app_nil_r; reflexivity|].
  destruct (Z.eqb_spec (Type_ tok) TokenRegister) as [->|H6].
  - destruct (ValueReceived tok); [discriminate|]. apply parse_number_kinds.
  - intros [= <-].
    replace ((0 <=? Type_ tok)%Z && (Type_ tok <? 8)%Z) with false;
      [rewrite app_nil_r; reflexivity|].
    symmetry. apply andb_false_iff. rewrite Z.leb_gt, Z.ltb_ge.
    unfold TokenIdentifier, TokenMacro, TokenQuotedString, TokenUint64, TokenUint32,
      TokenUint16, TokenUint8, TokenRegister in *. lia.
Qed.

Lemma token_loop_kinds (toks : list Token) :
  forall objList objList',
    token_loop toks objList = Completed objList' ->
    map ObjectTypeId objList' =
    map ObjectTypeId objList ++ map Type_ (filter builds_object toks).
Proof.
  induction toks as [|tok toks IH]; intros objList objList'; simpl.
  - intros [= <-]. rewrite app_nil_r. reflexivity.
  - destruct (token_case tok objList) as [objList1|r] eqn:Hcase; [|discriminate].
    intros Hloop. rewrite (IH _ _ Hloop), (token_case_kinds _ _ _ Hcase).
    rewrite <- app_assoc. destruct (builds_object tok); reflexivity.
Qed.

Lemma kinds_agree_map (objs : list ObjectType) (tpls : list TemplateObject) :
  Forall2 kinds_agree objs tpls <-> map ObjectTypeId objs = map TemplateType tpls.
Proof.
  split.
  - induction 1 as [|o t objs tpls Hk _ IH]; simpl; [reflexivity|].
    unfold kinds_agree in Hk. congruence.
  - revert tpls. induction objs as [|o objs IH]; intros [|t tpls]; simpl;
      try discriminate; [constructor|].
    intros [= Hk Hrest]. constructor; [exact Hk|apply IH; exact Hrest].
Qed.

(** X16. [ParseLine] succeeds exactly when the line has tokens, no
    number fails to parse, and the kinds of the template, in order, are
    the kinds of the tokens other than Unknown, in order: Unknown tokens
    take no place in the template. *)
Theorem ParseLine_succeeds_iff_kinds_match
        (unicodeLower : gostring -> gostring) (txt : gostring)
        (templateList : list TemplateObject) :
  let toks := Tokenize (EatComments (ToLower unicodeLower txt)) in
  (exists out msg, ParseLine unicodeLower txt templateList = Returned (out, true, msg)) <->
  toks <> [] /\
  (exists objList, token_loop toks [] = Completed objList) /\
  map TemplateType templateList = map Type_ (filter builds_object toks).
Proof.
  intros toks. unfold ParseLine. fold toks.
  destruct toks as [|tok toks'] eqn:Htoks.
  { simpl. split; [intros (out & msg & H); discriminate H|]. intros [H _]. congruence. }
  cbn [length Nat.eqb].
  destruct (token_loop (tok :: toks') []) as [objList|r] eqn:Hloop.
  - pose proof (token_loop_kinds _ _ _ Hloop) as Hkinds. cbn [map app] in Hkinds.
    rewrite <- Hkinds. split.
    + intros (out & msg & H).
      destruct (length objList =? length templateList) eqn:Hlen; [|discriminate H].
      apply Nat.eqb_eq in Hlen. cbn [negb] in H.
      apply check_loop_success in H as (Hall & _ & _); [|exact Hlen].
      apply kinds_agree_map in Hall.
      split; [discriminate|]. split; [eauto|]. congruence.
    + intros (_ & _ & Hmap). symmetry in Hmap. apply kinds_agree_map in Hmap.
      rewrite (Forall2_length Hmap), Nat.eqb_refl. cbn [negb].
      exists (Some objList), (go "").
      apply check_loop_success; [apply (Forall2_length Hmap)|]. auto.
  - split.
    + intros (out & msg & ->).
      destruct (token_loop_exit_fails _ _ _ Hloop) as [H|(kind & objs & H)]; discriminate H.
    + intros (_ & (objList & H) & _). discriminate H.
Qed.

(** ** The strings of the objects *)

Lemma emitted_text_incl (input : gostring) (tok : Token) (c : ascii) :
  In tok (Tokenize input) -> Type_ tok <> TokenUnknown ->
  In c (ValueReceived tok) -> In c input.
Proof.
  intros Hin Hkind Hc.
  destruct (emitted_by_pattern _ _ Hin Hkind) as (pre & rest & _ & n & -> & _ & _ & Hv & _).
  apply in_or_app. right. rewrite <- (firstn_skipn n rest), <- Hv.
  apply in_or_app. left. exact Hc.
Qed.

Lemma parse_number_strings (kind : Z) (digits : gostring) (objList : list ObjectType)
      (o : ObjectType) (s : gostring) :
  In o (produced (parse_number kind digits objList)) ->
  ObjectValue o = VString s -> In o objList.
Proof.
  unfold parse_number. destruct (ParseUint digits 16 64) as [v [e|]]; simpl;
    intros Hin Hs; apply in_app_or in Hin as [Hin|[<-|[]]]; auto; discriminate Hs.
Qed.

Lemma token_case_strings (tok : Token) (objList : list ObjectType)
      (o : ObjectType) (s : gostring) :
  In o (produced (token_case tok objList)) -> ObjectValue o = VString s ->
  In o objList \/ (s = ValueReceived tok /\ Type_ tok <> TokenUnknown).
Proof.
  assert (Htext : forall kind,
             Type_ tok = kind -> kind <> TokenUnknown ->
             In o (objList ++ [mkObject kind (VString (ValueReceived tok)) (go "")]) ->
             ObjectValue o = VString s ->
             In o objList \/ (s = ValueReceived tok /\ Type_ tok <> TokenUnknown)).
  { intros kind Hk Hne Hin Hs. apply in_app_or in Hin as [Hin|[<-|[]]]; [auto|].
    right. simpl in Hs. injection Hs as <-. rewrite Hk. auto. }
  unfold token_case.
  destruct (Z.eqb_spec (Type_ tok) TokenIdentifier) as [H0|H0];
    [apply Htext; [exact H0|discriminate]|].
  destruct (Z.eqb_spec (Type_ tok) TokenMacro) as [H7|H7];
    [apply Htext; [exact H7|discriminate]|].
  destruct (Z.eqb_spec (Type_ tok) TokenQuotedString) as [H1|H1];
    [apply Htext; [exact H1|discriminate]|].
  destruct (Type_ tok =? TokenUint64)%Z;
    [intros Hin Hs; left; eapply parse_number_strings; eauto|].
  destruct (Type_ tok =? TokenUint32)%Z;
    [intros Hin Hs; left; eapply parse_number_strings; eauto|].
  destruct (Type_ tok =? TokenUint16)%Z;
    [intros Hin Hs; left; eapply parse_number_strings; eauto|].
  destruct (Type_ tok =? TokenUint8)%Z;
    [intros Hin Hs; left; eapply parse_number_strings; eauto|].
  destruct (Type_ tok =? TokenUnknown)%Z; [simpl; auto|].
  destruct (Type_ tok =? TokenRegister)%Z; [|simpl; auto].
  destruct (ValueReceived tok); [simpl; contradiction|].
  intros Hin Hs; left; eapply parse_number_strings; eauto.
Qed.

Lemma token_case_produced (tok : Token) (objList : list ObjectType) (r : result ParseTriple) :
  token_case tok objList = Exit r -> produced (Exit r) = produced (token_case tok objList).
Proof. intros ->. reflexivity. Qed.

Lemma token_loop_strings (toks : list Token) :
  forall objList o s,
    In o (produced (token_loop toks objList)) -> ObjectValue o = VString s ->
    In o objList \/
    exists tok, In tok toks /\ s = ValueReceived tok /\ Type_ tok <> TokenUnknown.
Proof.
  induction toks as [|tok toks IH]; intros objList o s; simpl; [auto|].
  destruct (token_case tok objList) as [objList'|r] eqn:Hcase.
  - intros Hin Hs. destruct (IH _ _ _ Hin Hs) as [Hin'|(tok' & Ht & Hrest)].
    + assert (Hp : In o (produced (token_case tok objList))) by (rewrite Hcase; exact Hin').
      destruct (token_case_strings _ _ _ _ Hp Hs) as [Hacc|Hnew]; [auto|].
      right. exists tok. auto.
    + right. exists tok'. auto.
  - intros Hin Hs.
    assert (Hp : In o (produced (token_case tok objList))) by (rewrite Hcase; exact Hin).
    destruct (token_case_strings _ _ _ _ Hp Hs) as [Hacc|Hnew]; [auto|].
    right. exists tok. auto.
Qed.

Lemma EatComments_incl (txt : gostring) (c : ascii) :
  In c (EatComments txt) -> In c txt.
Proof.
  unfold EatComments. destruct (Index txt ";" >? -1)%Z; [|auto].
  intros Hin. rewrite <- (firstn_skipn (Z.to_nat (Index txt ";")) txt).
  apply in_or_app. left. exact Hin.
Qed.

(** X17. On a line of ASCII bytes no string that [ParseLine] returns in
    an object holds an upper-case letter: the line is folded to lower
    case before it is scanned, quoted strings included. *)
Theorem ParseLine_strings_are_lower_case
        (unicodeLower : gostring -> gostring) (txt : gostring)
        (templateList : list TemplateObject)
        (objs : list ObjectType) (ok : bool) (msg : gostring)
        (o : ObjectType) (s : gostring) :
  forallb is_ascii txt = true ->
  ParseLine unicodeLower txt templateList = Returned (Some objs, ok, msg) ->
  In o objs -> ObjectValue o = VString s ->
  Forall (fun c => is_upper c = false) s.
Proof.
  intros Hascii Hparse Hin Hs.
  destruct (ToLower_ascii unicodeLower txt Hascii) as [Hlow _].
  unfold ParseLine in Hparse. rewrite Hlow in Hparse.
  set (toks := Tokenize (EatComments (map lower_ascii txt))) in *.
  assert (Hprod : In o (produced (token_loop toks []))).
  { destruct (length toks =? 0); [discriminate Hparse|].
    destruct (token_loop toks []) as [objList|r] eqn:Hloop.
    - destruct (negb (length objList =? length templateList)); [discriminate Hparse|].
      apply check_loop_out in Hparse. injection Hparse as <-. exact Hin.
    - subst r. exact Hin. }
  destruct (token_loop_strings _ _ _ _ Hprod Hs) as [[]|(tok & Htok & -> & Hkind)].
  apply Forall_forall. intros c Hc.
  pose proof (emitted_text_incl _ _ _ Htok Hkind Hc) as Hinput.
  apply EatComments_incl, in_map_iff in Hinput as (c0 & <- & _).
  apply lower_ascii_not_upper.
Qed.

Lemma ParseLine_strings_are_lower_case_witness :
  Forall (fun c => is_upper c = false) (go "mov64").
Proof.
  apply (ParseLine_strings_are_lower_case (fun s => s) (go "MOV64 R1")
           [mkTemplate TokenIdentifier zero_object []; mkTemplate TokenRegister zero_object []]
           [mkObject TokenIdentifier (VString (go "mov64")) (go "");
            mkObject TokenRegister (VUint64 1) (go "")]
           true (go "")
           (mkObject TokenIdentifier (VString (go "mov64")) (go ""))).
  - reflexivity.
  - reflexivity.
  - left. reflexivity.
  - reflexivity.
Defined.

(** ** Instances *)

Lemma ParseLine_returns_with_named_kinds_witness :
  ParseLine (fun s => s) (go "ab") [mkTemplate TokenRegister zero_object (go "dst")] <> Panic.
Proof.
  apply ParseLine_returns_with_named_kinds.
  constructor; [|constructor]. unfold named, TemplateType, TokenRegister. lia.
Defined.

Lemma identifier_token_shape_witness :
  exists c1 c2 rest,
    go "a_b" = c1 :: c2 :: rest /\
    is_alpha c1 = true /\ 65 <= code c2 <= 122 /\
    Forall (fun c => is_word c = true) rest.
Proof.
  apply (identifier_token_shape (go "a_b 12") (mkToken TokenIdentifier (go "a_b"))).
  - vm_compute. tauto.
  - reflexivity.
Defined.
